(** * The multigrid cycle engine of deal.II

    A shallow embedding of [include/deal.II/multigrid/multigrid.templates.h]:
    the member functions of the class template [Multigrid<VectorType>]
    ([reinit], the setters, [level_v_step], [level_step], [cycle], [vcycle])
    become computations in a state-and-exception monad over a record that
    holds the members of the class. *)

From Stdlib Require Import ZArith Lia ZifyBool Bool String Ascii.
From stdpp Require Import base list.

Local Open Scope Z_scope.

(** ** Machine integers

    Levels and the debug verbosity are [unsigned int].  They are carried as
    [Z]; every arithmetic operation the source performs on them is followed
    by [wrap]. *)

Definition uint_bits : Z := 32.
Definition uint_mod : Z := 2 ^ uint_bits.
Definition wrap (z : Z) : Z := z mod uint_mod.
Definition is_uint (z : Z) : Prop := 0 <= z < uint_mod.

(** ** The template parameter [VectorType]

    The engine only uses the operations listed here.  The scalar literals
    the source passes ([-1.], [1.], [0.]) are integers and are carried as
    [Z].  Every operation takes the old value of [this] first: a vector
    keeps its shape under arithmetic. *)

Class VectorType (V real : Type) := {
  vnew : V;                        (* a default-constructed vector *)
  vreinit : V -> V -> V;           (* this.reinit(other) *)
  vassign : Z -> V -> V;           (* this = s *)
  vadd : V -> V -> V;              (* this += other *)
  vsub : V -> V -> V;              (* this -= other *)
  vsadd : Z -> Z -> V -> V -> V;   (* this.sadd(s, a, other): s*this + a*other *)
  vequ : Z -> V -> V -> V;         (* this.equ(a, other): a*other *)
  l2_norm : V -> real              (* this.l2_norm() *)
}.

(** ** The enumeration [Multigrid::Cycle] *)

Inductive Cycle := v_cycle | w_cycle | f_cycle.

Definition Cycle_eqb (a b : Cycle) : bool :=
  match a, b with
  | v_cycle, v_cycle | w_cycle, w_cycle | f_cycle, f_cycle => true
  | _, _ => false
  end.

Lemma Cycle_eqb_spec a b : reflect (a = b) (Cycle_eqb a b).
Proof. destruct a, b; constructor; congruence. Qed.

(** ** Exceptions and outcomes *)

Inductive Exception :=
| ExcLowerRangeType (a b : Z)
| ExcIndexRange (i lo hi : Z).

Inductive Outcome (A : Type) :=
| Done (a : A)
| Raised (e : Exception)
| OutOfFuel.
Arguments Done {A} a.
Arguments Raised {A} e.
Arguments OutOfFuel {A}.

(** ** What is written to [deallog], and the instrumentation *)

Inductive LogItem (real : Type) :=
| Str (s : string)
| Chr (c : ascii)
| Num (n : Z)
| Norm (r : real).
Arguments Str {real} s.
Arguments Chr {real} c.
Arguments Num {real} n.
Arguments Norm {real} r.

Inductive Collaborator :=
| TheCoarse | ThePreSmooth | ThePostSmooth | TheMatrix
| TheEdgeOut | TheEdgeIn | TheEdgeDown | TheEdgeUp
| TheRestrict | TheProlongate.

(** [Invoke who level] records a call of a collaborator; [Descend second
    level from to] records the recursive call of [level_step] made at
    [level] by a call with cycle type [from], with cycle argument [to];
    [second] tells the call inside [if (level>minlevel+1)] from the first
    one. *)
Inductive Event :=
| Invoke (who : Collaborator) (level : Z)
| Descend (second : bool) (level : Z) (from to : Cycle).

Inductive StoreId := Defect | Solution | Scratch | Defect2.

(** ** The monad

    State and exceptions.  The state is always returned, also when an
    exception is raised, so that what a failing call leaves behind can be
    stated. *)

Definition M (St A : Type) : Type := St -> Outcome A * St.

Definition ret {St A} (a : A) : M St A := fun mg => (Done a, mg).

Definition bind {St A B} (m : M St A) (k : A -> M St B) : M St B :=
  fun mg =>
    match m mg with
    | (Done a, mg') => k a mg'
    | (Raised e, mg') => (Raised e, mg')
    | (OutOfFuel, mg') => (OutOfFuel, mg')
    end.

Definition raise {St A} (e : Exception) : M St A := fun mg => (Raised e, mg).
Definition out_of_fuel {St A} : M St A := fun mg => (OutOfFuel, mg).
Definition gets {St A} (f : St -> A) : M St A := fun mg => (Done (f mg), mg).
Definition modify {St} (f : St -> St) : M St unit := fun mg => (Done tt, f mg).

Declare Scope mg_scope.
Delimit Scope mg_scope with mg.
Notation "x <- m ;; k" := (bind m (fun x => k))
  (at level 100, m at next level, k at level 200, right associativity) : mg_scope.
Notation "m ;; k" := (bind m (fun _ => k))
  (at level 100, k at level 200, right associativity) : mg_scope.

Section Engine.

Context {V real : Type} `{VT : VectorType V real}.

(** Modelled from the spec: the level-indexed vector store
    [MGLevelObject<VectorType>] (declared in [mg_level_object.h]): a
    container addressable by a contiguous integer range, one vector per
    level; [resize] sets the range and makes every slot a fresh vector;
    indexing outside the range is an error. *)
Record MGLevelObject := {
  ml_minlevel : Z;
  objects : list V
}.

Definition ml_resize (new_minlevel new_maxlevel : Z) : MGLevelObject :=
  {| ml_minlevel := new_minlevel;
     objects := replicate (Z.to_nat (new_maxlevel - new_minlevel + 1)) vnew |}.

Definition ml_limit (o : MGLevelObject) : Z :=
  ml_minlevel o + Z.of_nat (length (objects o)).

Definition ml_addressable (o : MGLevelObject) (i : Z) : bool :=
  (ml_minlevel o <=? i) && (i <? ml_limit o).

Definition ml_get (o : MGLevelObject) (i : Z) : option V :=
  if ml_addressable o i then objects o !! Z.to_nat (i - ml_minlevel o) else None.

Definition ml_set (o : MGLevelObject) (i : Z) (v : V) : MGLevelObject :=
  {| ml_minlevel := ml_minlevel o;
     objects := <[Z.to_nat (i - ml_minlevel o) := v]> (objects o) |}.

(** ** The collaborators

    The abstract base classes of [mg_base.h], with [const] virtual member
    functions; what an implementation computes is a parameter.  Each
    member function receives the level, the destination (by reference, so
    its old value is an input) and the source, and the result is the new
    destination. *)

Record MGMatrixBase := {
  get_minlevel : Z;
  get_maxlevel : Z;
  vmult : Z -> V -> V -> V;
  vmult_add : Z -> V -> V -> V;
  Tvmult : Z -> V -> V -> V;
  Tvmult_add : Z -> V -> V -> V
}.

Record MGCoarseGridBase := { coarse_solve : Z -> V -> V -> V }.

Record MGTransferBase := {
  prolongate : Z -> V -> V -> V;
  restrict_and_add : Z -> V -> V -> V
}.

Record MGSmootherBase := { smooth : Z -> V -> V -> V }.

(** ** The class [Multigrid<VectorType>]

    The data members the member functions use (they are declared in
    [multigrid.h]), then the global [deallog] stream and the list of
    instrumentation events. *)

Record Multigrid := {
  cycle_type : Cycle;
  minlevel : Z;
  maxlevel : Z;
  defect : MGLevelObject;
  solution : MGLevelObject;
  t : MGLevelObject;
  defect2 : MGLevelObject;
  matrix : MGMatrixBase;
  coarse : MGCoarseGridBase;
  transfer : MGTransferBase;
  pre_smooth : MGSmootherBase;
  post_smooth : MGSmootherBase;
  edge_out : option MGMatrixBase;
  edge_in : option MGMatrixBase;
  edge_down : option MGMatrixBase;
  edge_up : option MGMatrixBase;
  debug : Z;
  deallog : list (list (LogItem real));
  events : list Event
}.

Definition store (s : StoreId) (mg : Multigrid) : MGLevelObject :=
  match s with
  | Defect => defect mg
  | Solution => solution mg
  | Scratch => t mg
  | Defect2 => defect2 mg
  end.

Definition with_store (s : StoreId) (o : MGLevelObject) (mg : Multigrid) : Multigrid :=
  {| cycle_type := cycle_type mg; minlevel := minlevel mg; maxlevel := maxlevel mg;
     defect := match s with Defect => o | _ => defect mg end;
     solution := match s with Solution => o | _ => solution mg end;
     t := match s with Scratch => o | _ => t mg end;
     defect2 := match s with Defect2 => o | _ => defect2 mg end;
     matrix := matrix mg; coarse := coarse mg; transfer := transfer mg;
     pre_smooth := pre_smooth mg; post_smooth := post_smooth mg;
     edge_out := edge_out mg; edge_in := edge_in mg;
     edge_down := edge_down mg; edge_up := edge_up mg;
     debug := debug mg; deallog := deallog mg; events := events mg |}.

Definition with_levels (lo hi : Z) (mg : Multigrid) : Multigrid :=
  {| cycle_type := cycle_type mg; minlevel := lo; maxlevel := hi;
     defect := defect mg; solution := solution mg; t := t mg; defect2 := defect2 mg;
     matrix := matrix mg; coarse := coarse mg; transfer := transfer mg;
     pre_smooth := pre_smooth mg; post_smooth := post_smooth mg;
     edge_out := edge_out mg; edge_in := edge_in mg;
     edge_down := edge_down mg; edge_up := edge_up mg;
     debug := debug mg; deallog := deallog mg; events := events mg |}.

Definition with_cycle_type (c : Cycle) (mg : Multigrid) : Multigrid :=
  {| cycle_type := c; minlevel := minlevel mg; maxlevel := maxlevel mg;
     defect := defect mg; solution := solution mg; t := t mg; defect2 := defect2 mg;
     matrix := matrix mg; coarse := coarse mg; transfer := transfer mg;
     pre_smooth := pre_smooth mg; post_smooth := post_smooth mg;
     edge_out := edge_out mg; edge_in := edge_in mg;
     edge_down := edge_down mg; edge_up := edge_up mg;
     debug := debug mg; deallog := deallog mg; events := events mg |}.

Definition with_debug (d : Z) (mg : Multigrid) : Multigrid :=
  {| cycle_type := cycle_type mg; minlevel := minlevel mg; maxlevel := maxlevel mg;
     defect := defect mg; solution := solution mg; t := t mg; defect2 := defect2 mg;
     matrix := matrix mg; coarse := coarse mg; transfer := transfer mg;
     pre_smooth := pre_smooth mg; post_smooth := post_smooth mg;
     edge_out := edge_out mg; edge_in := edge_in mg;
     edge_down := edge_down mg; edge_up := edge_up mg;
     debug := d; deallog := deallog mg; events := events mg |}.

Definition with_edge_matrices (down up : option MGMatrixBase) (mg : Multigrid) : Multigrid :=
  {| cycle_type := cycle_type mg; minlevel := minlevel mg; maxlevel := maxlevel mg;
     defect := defect mg; solution := solution mg; t := t mg; defect2 := defect2 mg;
     matrix := matrix mg; coarse := coarse mg; transfer := transfer mg;
     pre_smooth := pre_smooth mg; post_smooth := post_smooth mg;
     edge_out := down; edge_in := up;
     edge_down := edge_down mg; edge_up := edge_up mg;
     debug := debug mg; deallog := deallog mg; events := events mg |}.

Definition with_edge_flux_matrices (down up : option MGMatrixBase) (mg : Multigrid) : Multigrid :=
  {| cycle_type := cycle_type mg; minlevel := minlevel mg; maxlevel := maxlevel mg;
     defect := defect mg; solution := solution mg; t := t mg; defect2 := defect2 mg;
     matrix := matrix mg; coarse := coarse mg; transfer := transfer mg;
     pre_smooth := pre_smooth mg; post_smooth := post_smooth mg;
     edge_out := edge_out mg; edge_in := edge_in mg;
     edge_down := down; edge_up := up;
     debug := debug mg; deallog := deallog mg; events := events mg |}.

Definition with_deallog (l : list (list (LogItem real))) (mg : Multigrid) : Multigrid :=
  {| cycle_type := cycle_type mg; minlevel := minlevel mg; maxlevel := maxlevel mg;
     defect := defect mg; solution := solution mg; t := t mg; defect2 := defect2 mg;
     matrix := matrix mg; coarse := coarse mg; transfer := transfer mg;
     pre_smooth := pre_smooth mg; post_smooth := post_smooth mg;
     edge_out := edge_out mg; edge_in := edge_in mg;
     edge_down := edge_down mg; edge_up := edge_up mg;
     debug := debug mg; deallog := l; events := events mg |}.

Definition with_events (l : list Event) (mg : Multigrid) : Multigrid :=
  {| cycle_type := cycle_type mg; minlevel := minlevel mg; maxlevel := maxlevel mg;
     defect := defect mg; solution := solution mg; t := t mg; defect2 := defect2 mg;
     matrix := matrix mg; coarse := coarse mg; transfer := transfer mg;
     pre_smooth := pre_smooth mg; post_smooth := post_smooth mg;
     edge_out := edge_out mg; edge_in := edge_in mg;
     edge_down := edge_down mg; edge_up := edge_up mg;
     debug := debug mg; deallog := deallog mg; events := l |}.


Local Open Scope mg_scope.

(** ** Access to the stores

    [at_ s i] is the rvalue [s[i]], [assign s i v] stores through the
    reference [s[i]]; both check the range as [operator[]] does. *)

Definition at_ (s : StoreId) (i : Z) : M Multigrid V :=
  fun mg =>
    match ml_get (store s mg) i with
    | Some v => (Done v, mg)
    | None => (Raised (ExcIndexRange i (ml_minlevel (store s mg)) (ml_limit (store s mg))), mg)
    end.

Definition assign (s : StoreId) (i : Z) (v : V) : M Multigrid unit :=
  fun mg =>
    if ml_addressable (store s mg) i
    then (Done tt, with_store s (ml_set (store s mg) i v) mg)
    else (Raised (ExcIndexRange i (ml_minlevel (store s mg)) (ml_limit (store s mg))), mg).

Definition resize (s : StoreId) : M Multigrid unit :=
  modify (fun mg => with_store s (ml_resize (minlevel mg) (maxlevel mg)) mg).

(** [dst.op()] and [dst.op(src)] on slots of the stores. *)
Definition vec_op1 (op : V -> V) (dst : StoreId * Z) : M Multigrid unit :=
  d <- at_ dst.1 dst.2;;
  assign dst.1 dst.2 (op d).

Definition vec_op2 (op : V -> V -> V) (dst src : StoreId * Z) : M Multigrid unit :=
  d <- at_ dst.1 dst.2;;
  s <- at_ src.1 src.2;;
  assign dst.1 dst.2 (op d s).

Definition note (e : Event) : M Multigrid unit :=
  modify (fun mg => with_events (events mg ++ [e]) mg).

(** [who->method(level, dst, src)]. *)
Definition invoke (who : Collaborator) (method : Z -> V -> V -> V) (level : Z)
    (dst src : StoreId * Z) : M Multigrid unit :=
  d <- at_ dst.1 dst.2;;
  s <- at_ src.1 src.2;;
  note (Invoke who level);;
  assign dst.1 dst.2 (method level d s).

(** [if (edge != 0) ...]. *)
Definition if_set (edge : Multigrid -> option MGMatrixBase)
    (body : MGMatrixBase -> M Multigrid unit) : M Multigrid unit :=
  e <- gets edge;;
  match e with
  | Some m => body m
  | None => ret tt
  end.

(** [deallog << ... << std::endl] and [if (debug>n) ...]. *)
Definition say (line : list (LogItem real)) : M Multigrid unit :=
  modify (fun mg => with_deallog (deallog mg ++ [line]) mg).

Definition say_norm (text : string) (v : StoreId * Z) : M Multigrid unit :=
  x <- at_ v.1 v.2;;
  say [Str text; Norm (l2_norm x)].

Definition if_debug (n : Z) (body : M Multigrid unit) : M Multigrid unit :=
  d <- gets debug;;
  if d >? n then body else ret tt.

(** Modelled from the spec: the macro [Assert] (declared in
    [exceptions.h]): a violated condition fails the call with the given
    exception, before anything after it runs. *)
Definition Assert (cond : bool) (e : Exception) : M Multigrid unit :=
  if cond then ret tt else raise e.

(** ** Range management and setters *)

Definition reinit (min_level max_level : Z) : M Multigrid unit :=
  m <- gets matrix;;
  Assert (min_level >=? get_minlevel m)
         (ExcLowerRangeType min_level (get_minlevel m));;
  Assert (max_level <=? get_maxlevel m)
         (ExcLowerRangeType (get_maxlevel m) max_level);;
  Assert (min_level <=? max_level)
         (ExcLowerRangeType max_level min_level);;
  modify (with_levels min_level max_level);;
  resize Defect.

Definition set_maxlevel (l : Z) : M Multigrid unit :=
  minl <- gets minlevel;;
  reinit minl l.

Definition set_minlevel (l : Z) (relative : bool) : M Multigrid unit :=
  maxl <- gets maxlevel;;
  let new_minlevel := if relative then wrap (maxl - l) else l in
  reinit new_minlevel maxl.

Definition set_cycle (c : Cycle) : M Multigrid unit := modify (with_cycle_type c).

Definition set_debug (d : Z) : M Multigrid unit := modify (with_debug d).

Definition set_edge_matrices (down up : MGMatrixBase) : M Multigrid unit :=
  modify (with_edge_matrices (Some down) (Some up)).

Definition set_edge_flux_matrices (down up : MGMatrixBase) : M Multigrid unit :=
  modify (with_edge_flux_matrices (Some down) (Some up)).

(** ** The V-cycle *)

Fixpoint level_v_step (fuel : nat) (level : Z) : M Multigrid unit :=
  match fuel with
  | O => out_of_fuel
  | S fuel' =>
    if_debug 0 (say [Str "V-cycle entering level "; Num level]);;
    if_debug 2 (say_norm "V-cycle  Defect norm   " (Defect, level));;
    minl <- gets minlevel;;
    if level =? minl then
      if_debug 0 (say [Str "Coarse level           "; Num level]);;
      c <- gets coarse;;
      invoke TheCoarse (coarse_solve c) level (Solution, level) (Defect, level)
    else
      if_debug 1 (say [Str "Smoothing on     level "; Num level]);;
      pre <- gets pre_smooth;;
      invoke ThePreSmooth (smooth pre) level (Solution, level) (Defect, level);;
      if_debug 2 (say_norm "Solution norm          " (Solution, level));;
      if_debug 1 (say [Str "Residual on      level "; Num level]);;
      A <- gets matrix;;
      invoke TheMatrix (vmult A) level (Scratch, level) (Solution, level);;
      if_debug 2 (say_norm "Residual norm          " (Scratch, level));;
      if_set edge_out (fun e =>
        invoke TheEdgeOut (vmult_add e) level (Scratch, level) (Solution, level);;
        if_debug 2 (x <- at_ Scratch level;;
                    say [Str "Norm     t["; Num level; Str "] "; Norm (l2_norm x)]));;
      vec_op2 (vsadd (-1) 1) (Scratch, level) (Defect, level);;
      if_set edge_down (fun e =>
        invoke TheEdgeDown (vmult e) level (Scratch, wrap (level - 1)) (Solution, level);;
        vec_op2 vsub (Defect, wrap (level - 1)) (Scratch, wrap (level - 1)));;
      tr <- gets transfer;;
      invoke TheRestrict (restrict_and_add tr) level (Defect, wrap (level - 1)) (Scratch, level);;
      vec_op1 (vassign 0) (Solution, wrap (level - 1));;
      level_v_step fuel' (wrap (level - 1));;
      vec_op1 (vassign 0) (Scratch, level);;
      invoke TheProlongate (prolongate tr) level (Scratch, level) (Solution, wrap (level - 1));;
      if_debug 2 (say_norm "Prolongate norm        " (Scratch, level));;
      vec_op2 vadd (Solution, level) (Scratch, level);;
      if_set edge_in (fun e =>
        invoke TheEdgeIn (Tvmult e) level (Scratch, level) (Solution, level);;
        vec_op2 vsub (Defect, level) (Scratch, level));;
      if_set edge_up (fun e =>
        invoke TheEdgeUp (Tvmult e) level (Scratch, level) (Solution, wrap (level - 1));;
        vec_op2 vsub (Defect, level) (Scratch, level));;
      if_debug 2 (say_norm "V-cycle  Defect norm   " (Defect, level));;
      if_debug 1 (say [Str "Smoothing on     level "; Num level]);;
      post <- gets post_smooth;;
      invoke ThePostSmooth (smooth post) level (Solution, level) (Defect, level);;
      if_debug 2 (say_norm "Solution norm          " (Solution, level));;
      if_debug 1 (say [Str "V-cycle leaving  level "; Num level])
  end.

(** ** The general recursion *)

Definition cychar (cycle : Cycle) : ascii :=
  match cycle with
  | v_cycle => "V"
  | f_cycle => "F"
  | w_cycle => "W"
  end%char.

Fixpoint level_step (fuel : nat) (level : Z) (cycle : Cycle) : M Multigrid unit :=
  match fuel with
  | O => out_of_fuel
  | S fuel' =>
    if_debug 0 (say [Chr (cychar cycle); Str "-cycle entering level "; Num level]);;
    minl <- gets minlevel;;
    tr <- gets transfer;;
    (if level >? minl then
       vec_op1 (vassign 0) (Defect2, wrap (level - 1));;
       invoke TheRestrict (restrict_and_add tr) level (Defect2, wrap (level - 1)) (Defect2, level)
     else ret tt);;
    vec_op2 (vequ (-1)) (Scratch, level) (Defect2, level);;
    vec_op2 vadd (Scratch, level) (Defect, level);;
    if_debug 2 (x <- at_ Scratch level;;
                say [Chr (cychar cycle); Str "-cycle defect norm    "; Norm (l2_norm x)]);;
    if level =? minl then
      if_debug 0 (say [Chr (cychar cycle); Str "-cycle coarse level   "; Num level]);;
      c <- gets coarse;;
      invoke TheCoarse (coarse_solve c) level (Solution, level) (Scratch, level)
    else
      if_debug 1 (say [Chr (cychar cycle); Str "-cycle smoothing level "; Num level]);;
      pre <- gets pre_smooth;;
      invoke ThePreSmooth (smooth pre) level (Solution, level) (Scratch, level);;
      if_debug 2 (x <- at_ Solution level;;
                  say [Chr (cychar cycle); Str "-cycle solution norm    "; Norm (l2_norm x)]);;
      if_debug 1 (say [Chr (cychar cycle); Str "-cycle residual level   "; Num level]);;
      A <- gets matrix;;
      invoke TheMatrix (vmult A) level (Scratch, level) (Solution, level);;
      if_set edge_out (fun e =>
        invoke TheEdgeOut (vmult_add e) level (Scratch, level) (Solution, level));;
      if_set edge_down (fun e =>
        invoke TheEdgeDown (vmult_add e) level (Defect2, wrap (level - 1)) (Solution, level));;
      invoke TheRestrict (restrict_and_add tr) level (Defect2, wrap (level - 1)) (Scratch, level);;
      vec_op1 (vassign 0) (Solution, wrap (level - 1));;
      note (Descend false level cycle cycle);;
      level_step fuel' (wrap (level - 1)) cycle;;
      (if level >? wrap (minl + 1) then
         if Cycle_eqb cycle w_cycle then
           note (Descend true level cycle cycle);;
           level_step fuel' (wrap (level - 1)) cycle
         else if Cycle_eqb cycle f_cycle then
           note (Descend true level cycle v_cycle);;
           level_step fuel' (wrap (level - 1)) v_cycle
         else ret tt
       else ret tt);;
      vec_op1 (vassign 0) (Scratch, level);;
      invoke TheProlongate (prolongate tr) level (Scratch, level) (Solution, wrap (level - 1));;
      vec_op2 vadd (Solution, level) (Scratch, level);;
      if_set edge_in (fun e =>
        invoke TheEdgeIn (Tvmult e) level (Scratch, level) (Solution, level));;
      if_set edge_up (fun e =>
        invoke TheEdgeUp (Tvmult e) level (Scratch, level) (Solution, wrap (level - 1)));;
      vec_op2 (vsadd (-1) (-1)) (Scratch, level) (Defect2, level);;
      vec_op2 vadd (Scratch, level) (Defect, level);;
      if_debug 2 (x <- at_ Scratch level;;
                  say [Chr (cychar cycle); Str "-cycle  Defect norm    "; Norm (l2_norm x)]);;
      if_debug 1 (say [Chr (cychar cycle); Str "-cycle smoothing level "; Num level]);;
      post <- gets post_smooth;;
      invoke ThePostSmooth (smooth post) level (Solution, level) (Scratch, level);;
      if_debug 1 (say [Chr (cychar cycle); Str "-cycle leaving level   "; Num level])
  end.

(** ** The entry points *)

(** [for (unsigned int level=start; level<=maxlevel; ++level) body]. *)
Fixpoint for_levels (fuel : nat) (level : Z) (body : Z -> M Multigrid unit)
    : M Multigrid unit :=
  match fuel with
  | O => out_of_fuel
  | S fuel' =>
    maxl <- gets maxlevel;;
    if level <=? maxl then
      body level;;
      for_levels fuel' (wrap (level + 1)) body
    else ret tt
  end.

Definition cycle (fuel : nat) : M Multigrid unit :=
  resize Solution;;
  resize Scratch;;
  ct <- gets cycle_type;;
  (if negb (Cycle_eqb ct v_cycle) then resize Defect2 else ret tt);;
  minl <- gets minlevel;;
  for_levels fuel minl (fun level =>
    vec_op2 vreinit (Solution, level) (Defect, level);;
    vec_op2 vreinit (Scratch, level) (Defect, level);;
    ct <- gets cycle_type;;
    if negb (Cycle_eqb ct v_cycle)
    then vec_op2 vreinit (Defect2, level) (Defect, level)
    else ret tt);;
  ct <- gets cycle_type;;
  maxl <- gets maxlevel;;
  if Cycle_eqb ct v_cycle
  then level_v_step fuel maxl
  else level_step fuel maxl ct.

Definition vcycle (fuel : nat) : M Multigrid unit :=
  resize Solution;;
  resize Scratch;;
  minl <- gets minlevel;;
  for_levels fuel minl (fun level =>
    vec_op2 vreinit (Solution, level) (Defect, level);;
    vec_op2 vreinit (Scratch, level) (Defect, level));;
  maxl <- gets maxlevel;;
  level_v_step fuel maxl.

(** ** The public interface, [set_debug] apart *)

Inductive Operation :=
| Reinit (min_level max_level : Z)
| SetMaxlevel (l : Z)
| SetMinlevel (l : Z) (relative : bool)
| SetCycle (c : Cycle)
| SetEdgeMatrices (down up : MGMatrixBase)
| SetEdgeFluxMatrices (down up : MGMatrixBase)
| RunCycle
| RunVcycle.

Definition perform (fuel : nat) (op : Operation) : M Multigrid unit :=
  match op with
  | Reinit min_level max_level => reinit min_level max_level
  | SetMaxlevel l => set_maxlevel l
  | SetMinlevel l relative => set_minlevel l relative
  | SetCycle c => set_cycle c
  | SetEdgeMatrices down up => set_edge_matrices down up
  | SetEdgeFluxMatrices down up => set_edge_flux_matrices down up
  | RunCycle => cycle fuel
  | RunVcycle => vcycle fuel
  end.

(** The body of the loop of [cycle], named for the lemmas about it. *)
Definition reinit_level (level : Z) : M Multigrid unit :=
  vec_op2 vreinit (Solution, level) (Defect, level);;
  vec_op2 vreinit (Scratch, level) (Defect, level);;
  ct <- gets cycle_type;;
  if negb (Cycle_eqb ct v_cycle)
  then vec_op2 vreinit (Defect2, level) (Defect, level)
  else ret tt.

End Engine.

(** * Properties *)

Section Stores.

Context {V real : Type} `{VT : VectorType V real}.

Implicit Types (o : MGLevelObject (V:=V)) (mg : Multigrid (V:=V) (real:=real)).

Lemma ml_limit_set o i v : ml_limit (ml_set o i v) = ml_limit o.
Proof. unfold ml_limit, ml_set; simpl. now rewrite length_insert. Qed.

Lemma ml_addressable_set o i v j :
  ml_addressable (ml_set o i v) j = ml_addressable o j.
Proof. unfold ml_addressable. now rewrite ml_limit_set. Qed.

Lemma ml_addressable_iff o i :
  ml_addressable o i = true <-> ml_minlevel o <= i < ml_limit o.
Proof. unfold ml_addressable. rewrite andb_true_iff, Z.leb_le, Z.ltb_lt. tauto. Qed.

Lemma ml_get_addressable o i :
  ml_addressable o i = true -> exists v, ml_get o i = Some v.
Proof.
  intros Ha. unfold ml_get. rewrite Ha.
  apply ml_addressable_iff in Ha. unfold ml_limit in Ha.
  destruct (lookup_lt_is_Some_2 (objects o) (Z.to_nat (i - ml_minlevel o))) as [v Hv];
    [lia | eauto].
Qed.

Lemma ml_get_Some o i v : ml_get o i = Some v -> ml_addressable o i = true.
Proof. unfold ml_get. destruct (ml_addressable o i); [easy | discriminate]. Qed.

Lemma ml_get_set_same o i v :
  ml_addressable o i = true -> ml_get (ml_set o i v) i = Some v.
Proof.
  intros Ha. unfold ml_get. rewrite ml_addressable_set, Ha. simpl.
  apply ml_addressable_iff in Ha. unfold ml_limit in Ha.
  apply list_lookup_insert_eq. lia.
Qed.

Lemma ml_get_set_other o i j v :
  i <> j -> ml_addressable o i = true -> ml_get (ml_set o i v) j = ml_get o j.
Proof.
  intros Hne Ha. unfold ml_get. rewrite ml_addressable_set.
  destruct (ml_addressable o j) eqn:Hj; [| reflexivity]. simpl.
  apply ml_addressable_iff in Ha, Hj.
  apply list_lookup_insert_ne. lia.
Qed.

(** A slot of a store after one slot was assigned. *)
Lemma ml_get_set o i j v w :
  ml_addressable o i = true -> ml_get (ml_set o i v) j = Some w ->
  (j = i /\ w = v) \/ (j <> i /\ ml_get o j = Some w).
Proof.
  intros Ha Hg. destruct (Z.eq_dec i j) as [-> | Hne].
  - rewrite ml_get_set_same in Hg by assumption. left. split; congruence.
  - rewrite ml_get_set_other in Hg by assumption. right. split; congruence.
Qed.

Lemma ml_limit_resize lo hi :
  lo <= hi + 1 -> ml_limit (ml_resize lo hi) = hi + 1.
Proof. intros. unfold ml_limit, ml_resize; simpl. rewrite length_replicate. lia. Qed.

Lemma store_with_store s o mg : store s (with_store s o mg) = o.
Proof. now destruct s. Qed.

Lemma store_with_store_ne s s' o mg :
  s <> s' -> store s (with_store s' o mg) = store s mg.
Proof. destruct s, s'; simpl; congruence. Qed.

Lemma StoreId_eq_dec (s s' : StoreId) : {s = s'} + {s <> s'}.
Proof. decide equality. Defined.

End Stores.

(** ** Invariants that hold whatever the outcome

    [inv I m Q]: [m] keeps the invariant [I] of the state, also when it
    raises, and a value it returns satisfies [Q]. *)

Section Invariants.

Context {V real : Type} `{VT : VectorType V real}.

Local Abbreviation MG := (Multigrid (V:=V) (real:=real)).
Local Abbreviation Mg := (M MG).

Definition inv {A} (I : MG -> Prop) (m : Mg A) (Q : A -> Prop) : Prop :=
  forall mg, I mg -> I (m mg).2 /\ forall a, (m mg).1 = Done a -> Q a.

Lemma inv_ret {A} I (a : A) (Q : A -> Prop) : Q a -> inv I (ret a) Q.
Proof. intros HQ mg HI; simpl. split; [assumption | congruence]. Qed.

Lemma inv_bind {A B} I (m : Mg A) (k : A -> Mg B) Q R :
  inv I m Q -> (forall a, Q a -> inv I (k a) R) -> inv I (bind m k) R.
Proof.
  intros Hm Hk mg HI. destruct (Hm mg HI) as [HI' HQ]. unfold bind.
  destruct (m mg) as [[a | e |] mg']; simpl in *.
  - apply (Hk a (HQ a eq_refl) mg' HI').
  - split; [assumption | discriminate].
  - split; [assumption | discriminate].
Qed.

Lemma inv_out_of_fuel {A} I (Q : A -> Prop) : inv I out_of_fuel Q.
Proof. intros mg HI; simpl. split; [assumption | discriminate]. Qed.

Lemma inv_gets {A} I (f : MG -> A) (Q : A -> Prop) :
  (forall mg, I mg -> Q (f mg)) -> inv I (gets f) Q.
Proof. intros HQ mg HI; simpl. split; [assumption |]. intros a [= <-]. auto. Qed.

Lemma inv_gets_sp {A} I (f : MG -> A) :
  inv I (gets f) (fun a => exists mg, I mg /\ a = f mg).
Proof. apply inv_gets. eauto. Qed.

Lemma inv_modify I (f : MG -> MG) :
  (forall mg, I mg -> I (f mg)) -> inv I (modify f) (fun _ => True).
Proof. intros Hf mg HI; simpl. split; auto. Qed.

Lemma inv_at_ I s i (Q : V -> Prop) :
  (forall mg v, I mg -> ml_get (store s mg) i = Some v -> Q v) -> inv I (at_ s i) Q.
Proof.
  intros HQ mg HI. unfold at_.
  destruct (ml_get (store s mg) i) as [v |] eqn:Hg; simpl.
  - split; [assumption |]. intros a [= <-]. eauto.
  - split; [assumption | discriminate].
Qed.

Lemma inv_assign I s i v :
  (forall mg, I mg -> ml_addressable (store s mg) i = true ->
              I (with_store s (ml_set (store s mg) i v) mg)) ->
  inv I (assign s i v) (fun _ => True).
Proof.
  intros HI' mg HI. unfold assign.
  destruct (ml_addressable (store s mg) i) eqn:Ha; simpl; split; auto.
Qed.

(** The compound statements, for an invariant that the log does not
    touch, under which the slots of the stores in [Rd] satisfy [P], and
    that is kept when a slot of a store in [W] receives a value satisfying
    [P]. *)

Variable I : MG -> Prop.
Variable P : V -> Prop.
Variables Rd W : StoreId -> Prop.

Hypothesis I_deallog : forall mg l, I mg -> I (with_deallog l mg).
Hypothesis I_slot : forall mg s i v,
  Rd s -> I mg -> ml_get (store s mg) i = Some v -> P v.
Hypothesis I_assign : forall mg s i v,
  W s -> P v -> I mg -> ml_addressable (store s mg) i = true ->
  I (with_store s (ml_set (store s mg) i v) mg).

Lemma inv_say line : inv I (say line) (fun _ => True).
Proof. apply inv_modify. auto. Qed.

Lemma inv_say_norm text v : inv I (say_norm text v) (fun _ => True).
Proof.
  unfold say_norm. eapply inv_bind; [apply inv_at_ with (Q := fun _ => True); auto |].
  intros; apply inv_say.
Qed.

Lemma inv_if_debug n body :
  inv I body (fun _ => True) -> inv I (if_debug n body) (fun _ => True).
Proof.
  intros Hb. unfold if_debug.
  eapply inv_bind; [apply inv_gets with (Q := fun _ => True); auto |].
  intros d _. destruct (d >? n); [assumption | now apply inv_ret].
Qed.

Lemma inv_if_set (edge : MG -> option MGMatrixBase) (E : MGMatrixBase -> Prop) body :
  (forall mg e, I mg -> edge mg = Some e -> E e) ->
  (forall e, E e -> inv I (body e) (fun _ => True)) ->
  inv I (if_set edge body) (fun _ => True).
Proof.
  intros HE Hb. unfold if_set.
  eapply inv_bind;
    [apply inv_gets with (Q := fun o => forall e, o = Some e -> E e); eauto |].
  intros [e |] He; [apply Hb; auto | now apply inv_ret].
Qed.

Lemma inv_if_set_sp (edge : MG -> option MGMatrixBase) body :
  (forall e, (exists mg, I mg /\ edge mg = Some e) -> inv I (body e) (fun _ => True)) ->
  inv I (if_set edge body) (fun _ => True).
Proof.
  intros Hb.
  apply inv_if_set with (E := fun e => exists mg, I mg /\ edge mg = Some e); eauto.
Qed.

Lemma inv_vec_op1 op dst :
  Rd dst.1 -> W dst.1 -> (forall d, P d -> P (op d)) ->
  inv I (vec_op1 op dst) (fun _ => True).
Proof.
  intros HR HW Hop. unfold vec_op1.
  eapply inv_bind; [apply inv_at_ with (Q := P); eauto |].
  intros d Hd. apply inv_assign. auto.
Qed.

Lemma inv_vec_op2 op dst src :
  Rd dst.1 -> Rd src.1 -> W dst.1 -> (forall d s, P d -> P s -> P (op d s)) ->
  inv I (vec_op2 op dst src) (fun _ => True).
Proof.
  intros HR HR' HW Hop. unfold vec_op2.
  eapply inv_bind; [apply inv_at_ with (Q := P); eauto |]. intros d Hd.
  eapply inv_bind; [apply inv_at_ with (Q := P); eauto |]. intros s Hs.
  apply inv_assign. auto.
Qed.

Lemma inv_invoke who method level dst src :
  Rd dst.1 -> Rd src.1 -> W dst.1 ->
  (forall d s, P d -> P s -> P (method level d s)) ->
  inv I (note (Invoke who level)) (fun _ => True) ->
  inv I (invoke who method level dst src) (fun _ => True).
Proof.
  intros HR HR' HW Hop Hnote. unfold invoke.
  eapply inv_bind; [apply inv_at_ with (Q := P); eauto |]. intros d Hd.
  eapply inv_bind; [apply inv_at_ with (Q := P); eauto |]. intros s Hs.
  eapply inv_bind; [apply Hnote |]. intros _ _.
  apply inv_assign. auto.
Qed.

End Invariants.

(** Walks through a body of statements; [prim] closes the statements that
    depend on the invariant at hand. *)
Ltac inv_walk prim :=
  lazymatch goal with
  | |- inv _ (bind _ _) _ =>
      let H := fresh "H" in
      eapply inv_bind; [inv_walk prim | intros ? H; cbv beta in H; inv_walk prim]
  | |- inv _ (if ?b then _ else _) _ =>
      destruct b eqn:?; inv_walk prim
  | |- inv _ (ret _) _ => apply inv_ret; exact Logic.I
  | |- inv _ (gets _) _ => apply inv_gets_sp
  | |- inv _ out_of_fuel _ => apply inv_out_of_fuel
  | |- inv _ (if_debug _ _) _ => eapply inv_if_debug; inv_walk prim
  | |- inv _ (if_set _ _) _ =>
      let H := fresh "H" in
      eapply inv_if_set_sp; intros ? H; cbv beta in H; inv_walk prim
  | |- _ => prim
  end.

(** A statement that is not a control structure: [side] closes what the
    invariant at hand has to provide. *)
Ltac inv_prim value readable writable side :=
  first
    [ eapply inv_say
    | eapply inv_say_norm
    | eapply inv_vec_op1 with (P := value) (Rd := readable) (W := writable)
    | eapply inv_vec_op2 with (P := value) (Rd := readable) (W := writable)
    | eapply inv_invoke with (P := value) (Rd := readable) (W := writable)
    | apply inv_at_
    | apply inv_modify ];
  side.

Section Frame.

Context {V real : Type} `{VT : VectorType V real}.

Local Abbreviation MG := (Multigrid (V:=V) (real:=real)).

(** *** The general recursion never writes the defect store *)








(** *** The second descent *)

(** What the source says of the second descent: it happens at a level
    above [minlevel+1], from a W-cycle with type W and from an F-cycle
    with type V. *)
Definition descent_ok (minl : Z) (e : Event) : Prop :=
  match e with
  | Descend true level from to =>
      level > wrap (minl + 1) /\
      (from = w_cycle /\ to = w_cycle \/ from = f_cycle /\ to = v_cycle)
  | _ => True
  end.

Definition descents_ok (minl : Z) (E : list Event) (mg : MG) : Prop :=
  minlevel mg = minl /\
  exists new, events mg = E ++ new /\ Forall (descent_ok minl) new.

Lemma descents_ok_note minl E e :
  descent_ok minl e -> inv (descents_ok minl E) (note e) (fun _ => True).
Proof.
  intros He. apply inv_modify. intros mg [Hm (new & Hev & Hok)].
  split; [exact Hm |]. exists (new ++ [e]). simpl events.
  rewrite Hev, <- app_assoc. split; [reflexivity |].
  apply Forall_app. split; [assumption | now constructor].
Qed.

Lemma descents_ok_assign minl E (mg : MG) s i v :
  descents_ok minl E mg ->
  descents_ok minl E (with_store s (ml_set (store s mg) i v) mg).
Proof. destruct s; exact (fun H => H). Qed.

Ltac descent_facts :=
  repeat match goal with
  | H : exists mg, descents_ok _ _ mg /\ ?x = minlevel mg |- _ =>
      let mg := fresh "mg" in
      let Hm := fresh "Hm" in
      destruct H as (mg & [Hm _] & ->); rewrite Hm in *; clear mg Hm
  | H : Cycle_eqb ?c ?c' = true |- _ =>
      destruct (Cycle_eqb_spec c c'); [subst; clear H | discriminate]
  end.

Ltac descent_side :=
  first
    [ exact Logic.I
    | intros; exact Logic.I
    | intros; apply descents_ok_assign; assumption
    | apply descents_ok_note; exact Logic.I
    | intros; assumption ].

Lemma level_step_descents minl E fuel :
  forall level c, inv (descents_ok minl E) (level_step fuel level c) (fun _ => True).
Proof.
  induction fuel as [| fuel IH]; intros level c; simpl.
  - apply inv_out_of_fuel.
  - inv_walk ltac:(first
      [ apply IH
      | apply descents_ok_note; descent_facts; cbn [descent_ok];
        first [exact Logic.I | split; [lia | tauto]]
      | inv_prim (fun _ : V => True) (fun _ : StoreId => True)
                 (fun _ : StoreId => True) descent_side ]).
Qed.

(** *** Zero stays zero *)

Section Zero.

Variable is_zero : V -> Prop.

(** A collaborator's method that gives a zero vector when the destination
    and the source are zero. *)
Definition zero_preserving (method : Z -> V -> V -> V) : Prop :=
  forall level d s, is_zero d -> is_zero s -> is_zero (method level d s).

Definition zero_matrix (m : MGMatrixBase) : Prop :=
  zero_preserving (vmult m) /\ zero_preserving (vmult_add m) /\
  zero_preserving (Tvmult m).

Definition zero_edge (e : option MGMatrixBase) : Prop :=
  forall m, e = Some m -> zero_matrix m.

Definition zero_collaborators (mg : MG) : Prop :=
  zero_matrix (matrix mg) /\
  zero_preserving (coarse_solve (coarse mg)) /\
  (zero_preserving (prolongate (transfer mg)) /\
   zero_preserving (restrict_and_add (transfer mg))) /\
  (zero_preserving (smooth (pre_smooth mg)) /\
   zero_preserving (smooth (post_smooth mg))) /\
  (zero_edge (edge_out mg) /\ zero_edge (edge_in mg) /\
   zero_edge (edge_down mg) /\ zero_edge (edge_up mg)).

(** The vector operations the recursion uses, on zero vectors. *)
Definition zero_vectors : Prop :=
  (forall x, is_zero (vassign 0 x)) /\
  (forall x y, is_zero x -> is_zero y -> is_zero (vadd x y)) /\
  (forall x y, is_zero x -> is_zero y -> is_zero (vsub x y)) /\
  (forall s a x y, is_zero x -> is_zero y -> is_zero (vsadd s a x y)) /\
  (forall a x y, is_zero x -> is_zero y -> is_zero (vequ a x y)).

(** The collaborators preserve zero and the slots of the stores in [S]
    are zero. *)
Definition zero_state (S : StoreId -> Prop) (mg : MG) : Prop :=
  zero_collaborators mg /\
  forall s i v, S s -> ml_get (store s mg) i = Some v -> is_zero v.

Lemma zero_state_slot S (mg : MG) s i v :
  zero_state S mg -> ml_get (store s mg) i = Some v -> S s -> is_zero v.
Proof. intros [_ Hz] Hg Hs. eauto. Qed.

Lemma zero_state_assign S (mg : MG) s i v :
  zero_state S mg -> S s -> is_zero v -> ml_addressable (store s mg) i = true ->
  zero_state S (with_store s (ml_set (store s mg) i v) mg).
Proof.
  intros [Hc Hz] Hs Hv Ha. split; [destruct s; exact Hc |].
  intros s' j w Hs'. destruct (StoreId_eq_dec s' s) as [-> | Hne].
  - rewrite store_with_store. intros Hg.
    apply ml_get_set in Hg; [| assumption].
    destruct Hg as [[_ ->] | [_ Hg]]; eauto.
  - rewrite store_with_store_ne by assumption. eauto.
Qed.

Hypothesis vectors : zero_vectors.

(** What the invariant says of a collaborator read from the state. *)
Ltac zero_facts :=
  repeat match goal with
  | H : exists mg, zero_state _ mg /\ _ = _ |- _ =>
      let mg := fresh "mg" in
      let Hc := fresh "Hc" in
      destruct H as (mg & [Hc _] & ?); subst
  end;
  unfold zero_collaborators, zero_edge, zero_matrix, zero_preserving in *;
  repeat match goal with H : _ /\ _ |- _ => destruct H end;
  repeat match goal with
  | He : ?o = Some ?e, Hf : forall m, ?o = Some m -> _ |- _ => specialize (Hf e He)
  end;
  repeat match goal with H : _ /\ _ |- _ => destruct H end.

Ltac zero_side :=
  first
    [ exact Logic.I
    | discriminate
    | intros; exact Logic.I
    | intros; eapply zero_state_slot; eassumption
    | intros; eapply zero_state_assign; eassumption
    | apply inv_modify; intros; assumption
    | intros; assumption
    | intros; apply vectors; assumption
    | intros; zero_facts; solve [eauto] ].

Lemma level_step_zero fuel :
  forall level c,
    inv (zero_state (fun _ => True)) (level_step fuel level c) (fun _ => True).
Proof.
  induction fuel as [| fuel IH]; intros level c; simpl.
  - apply inv_out_of_fuel.
  - inv_walk ltac:(first
      [ apply IH
      | inv_prim is_zero (fun _ : StoreId => True) (fun _ : StoreId => True) zero_side ]).
Qed.

Lemma level_v_step_zero fuel :
  forall level,
    inv (zero_state (fun s => s <> Defect2)) (level_v_step fuel level) (fun _ => True).
Proof.
  induction fuel as [| fuel IH]; intros level; simpl.
  - apply inv_out_of_fuel.
  - inv_walk ltac:(first
      [ apply IH
      | inv_prim is_zero (fun s => s <> Defect2) (fun s => s <> Defect2) zero_side ]).
Qed.

End Zero.

End Frame.

(** ** Normal termination

    [runs P m P' Q]: from every state satisfying [P], [m] returns normally,
    in a state satisfying [P'], with a value satisfying [Q]. *)

Section Runs.

Context {V real : Type} `{VT : VectorType V real}.

Local Abbreviation MG := (Multigrid (V:=V) (real:=real)).
Local Abbreviation Mg := (M MG).

Definition runs {A} (P : MG -> Prop) (m : Mg A) (P' : MG -> Prop) (Q : A -> Prop) : Prop :=
  forall mg, P mg -> exists a mg', m mg = (Done a, mg') /\ P' mg' /\ Q a.

Lemma runs_ret {A} P (a : A) : runs P (ret a) P (fun _ => True).
Proof. intros mg HP. exists a, mg. auto. Qed.

Lemma runs_bind {A B} P P' P'' (m : Mg A) (k : A -> Mg B) Q R :
  runs P m P' Q -> (forall a, Q a -> runs P' (k a) P'' R) -> runs P (bind m k) P'' R.
Proof.
  intros Hm Hk mg HP. destruct (Hm mg HP) as (a & mg' & Hrun & HP' & HQ).
  destruct (Hk a HQ mg' HP') as (b & mg'' & Hrun' & HP'' & HR).
  exists b, mg''. unfold bind. rewrite Hrun. auto.
Qed.

Lemma runs_post {A} P P' P'' (m : Mg A) Q :
  runs P m P' Q -> (forall mg, P' mg -> P'' mg) -> runs P m P'' Q.
Proof.
  intros Hm Hw mg HP. destruct (Hm mg HP) as (a & mg' & Hrun & HP' & HQ).
  exists a, mg'. auto.
Qed.

Lemma runs_gets_sp {A} P (f : MG -> A) :
  runs P (gets f) P (fun a => exists mg, P mg /\ a = f mg).
Proof. intros mg HP. exists (f mg), mg. eauto. Qed.

Lemma runs_modify P P' (f : MG -> MG) :
  (forall mg, P mg -> P' (f mg)) -> runs P (modify f) P' (fun _ => True).
Proof. intros Hf mg HP. exists tt, (f mg). auto. Qed.

Lemma runs_at_ P s i :
  (forall mg, P mg -> ml_addressable (store s mg) i = true) ->
  runs P (at_ s i) P (fun v => exists mg, P mg /\ ml_get (store s mg) i = Some v).
Proof.
  intros Ha mg HP. destruct (ml_get_addressable _ _ (Ha mg HP)) as [v Hv].
  exists v, mg. unfold at_. rewrite Hv. eauto.
Qed.

Lemma runs_assign P P' s i v :
  (forall mg, P mg -> ml_addressable (store s mg) i = true /\
                      P' (with_store s (ml_set (store s mg) i v) mg)) ->
  runs P (assign s i v) P' (fun _ => True).
Proof.
  intros Ha mg HP. destruct (Ha mg HP) as [Hadd HP'].
  eexists tt, _. unfold assign. rewrite Hadd. auto.
Qed.

(** *** States whose stores span the level range

    [S] tells the stores that are allocated, [E] is the list of events
    at the start, [T] the coarse-solver calls and descents since then,
    latest first. *)

Definition ranged (lo hi : Z) (S : StoreId -> Prop) (mg : MG) : Prop :=
  minlevel mg = lo /\ maxlevel mg = hi /\
  forall s, S s -> ml_minlevel (store s mg) = lo /\ ml_limit (store s mg) = hi + 1.

Definition essential (e : Event) : bool :=
  match e with
  | Invoke TheCoarse _ | Descend _ _ _ _ => true
  | Invoke _ _ => false
  end.

Definition traced (lo hi : Z) (S : StoreId -> Prop) (E T : list Event) (mg : MG) : Prop :=
  ranged lo hi S mg /\
  exists new, events mg = E ++ new /\ rev (List.filter essential new) = T.

Variables (lo hi : Z) (S : StoreId -> Prop) (E : list Event).

Lemma ranged_addressable mg s i :
  ranged lo hi S mg -> S s -> lo <= i <= hi -> ml_addressable (store s mg) i = true.
Proof.
  intros (_ & _ & HS) Hs Hi. destruct (HS s Hs) as [Hmin Hlim].
  apply ml_addressable_iff. lia.
Qed.

Lemma ranged_assign mg s i v :
  ranged lo hi S mg -> ranged lo hi S (with_store s (ml_set (store s mg) i v) mg).
Proof.
  intros (Hlo & Hhi & HS). split; [| split]; [assumption .. |].
  intros s' Hs'. destruct (StoreId_eq_dec s' s) as [-> | Hne].
  - rewrite store_with_store, ml_limit_set. simpl. auto.
  - rewrite store_with_store_ne by assumption. auto.
Qed.

Lemma traced_assign T mg s i v :
  traced lo hi S E T mg -> traced lo hi S E T (with_store s (ml_set (store s mg) i v) mg).
Proof.
  intros [Hr Ht]. split; [now apply ranged_assign |].
  destruct s; exact Ht.
Qed.

Lemma traced_deallog T mg l :
  traced lo hi S E T mg -> traced lo hi S E T (with_deallog l mg).
Proof. intros [Hr Ht]. split; assumption. Qed.

Lemma traced_event T mg e :
  traced lo hi S E T mg ->
  traced lo hi S E (List.filter essential [e] ++ T) (with_events (events mg ++ [e]) mg).
Proof.
  intros [Hr (new & Hev & Hf)]. split; [exact Hr |].
  exists (new ++ [e]). simpl events. rewrite Hev, <- app_assoc. split; [reflexivity |].
  rewrite List.filter_app, rev_app_distr, Hf. f_equal.
  simpl. now destruct (essential e).
Qed.

Lemma runs_traced_at_ T s i :
  S s -> lo <= i <= hi ->
  runs (traced lo hi S E T) (at_ s i) (traced lo hi S E T) (fun _ => True).
Proof.
  intros Hs Hi mg HP.
  destruct (ml_get_addressable _ _ (ranged_addressable mg s i (proj1 HP) Hs Hi)) as [v Hv].
  exists v, mg. unfold at_. rewrite Hv. auto.
Qed.

Lemma runs_traced_assign T s i v :
  S s -> lo <= i <= hi ->
  runs (traced lo hi S E T) (assign s i v) (traced lo hi S E T) (fun _ => True).
Proof.
  intros Hs Hi. apply runs_assign. intros mg HP. split.
  - destruct HP as [Hr _]. now apply ranged_addressable.
  - now apply traced_assign.
Qed.

Lemma runs_traced_vec_op1 T op dst :
  S dst.1 -> lo <= dst.2 <= hi ->
  runs (traced lo hi S E T) (vec_op1 op dst) (traced lo hi S E T) (fun _ => True).
Proof.
  intros Hs Hi. unfold vec_op1.
  eapply runs_bind; [now apply runs_traced_at_ |]. intros d _.
  now apply runs_traced_assign.
Qed.

Lemma runs_traced_vec_op2 T op dst src :
  S dst.1 -> lo <= dst.2 <= hi -> S src.1 -> lo <= src.2 <= hi ->
  runs (traced lo hi S E T) (vec_op2 op dst src) (traced lo hi S E T) (fun _ => True).
Proof.
  intros Hs Hi Hs' Hi'. unfold vec_op2.
  eapply runs_bind; [now apply runs_traced_at_ |]. intros d _.
  eapply runs_bind; [now apply runs_traced_at_ |]. intros s _.
  now apply runs_traced_assign.
Qed.

Lemma runs_traced_note T T' e :
  List.filter essential [e] ++ T = T' ->
  runs (traced lo hi S E T) (note e) (traced lo hi S E T') (fun _ => True).
Proof. intros <-. apply runs_modify. intros mg HP. now apply traced_event. Qed.

Lemma runs_traced_invoke T T' who method level dst src :
  S dst.1 -> lo <= dst.2 <= hi -> S src.1 -> lo <= src.2 <= hi ->
  List.filter essential [Invoke who level] ++ T = T' ->
  runs (traced lo hi S E T) (invoke who method level dst src)
       (traced lo hi S E T') (fun _ => True).
Proof.
  intros Hs Hi Hs' Hi' HT. unfold invoke.
  eapply runs_bind; [now apply runs_traced_at_ |]. intros d _.
  eapply runs_bind; [now apply runs_traced_at_ |]. intros s _.
  eapply runs_bind; [apply runs_traced_note; exact HT |]. intros _ _.
  now apply runs_traced_assign.
Qed.

Lemma runs_traced_say T line :
  runs (traced lo hi S E T) (say line) (traced lo hi S E T) (fun _ => True).
Proof. apply runs_modify. intros mg HP. now apply traced_deallog. Qed.

Lemma runs_traced_say_norm T text v :
  S v.1 -> lo <= v.2 <= hi ->
  runs (traced lo hi S E T) (say_norm text v) (traced lo hi S E T) (fun _ => True).
Proof.
  intros Hs Hi. unfold say_norm.
  eapply runs_bind; [now apply runs_traced_at_ |]. intros x _.
  apply runs_traced_say.
Qed.

Lemma runs_if_debug P n body :
  runs P body P (fun _ => True) -> runs P (if_debug n body) P (fun _ => True).
Proof.
  intros Hb. unfold if_debug.
  eapply runs_bind; [apply runs_gets_sp |]. intros d _.
  destruct (d >? n); [assumption | apply runs_ret].
Qed.

Lemma runs_if_set P (edge : MG -> option MGMatrixBase) body :
  (forall e, runs P (body e) P (fun _ => True)) ->
  runs P (if_set edge body) P (fun _ => True).
Proof.
  intros Hb. unfold if_set.
  eapply runs_bind; [apply runs_gets_sp |]. intros [e |] _; [apply Hb | apply runs_ret].
Qed.

End Runs.

Lemma wrap_small z : is_uint z -> wrap z = z.
Proof. intros Hz. unfold wrap. apply Z.mod_small. exact Hz. Qed.

Ltac runs_walk prim contra :=
  lazymatch goal with
  | |- runs _ (bind _ _) _ _ =>
      let H := fresh "H" in
      eapply runs_bind;
        [runs_walk prim contra | intros ? H; cbv beta in H; runs_walk prim contra]
  | |- runs _ (if ?b then _ else _) _ _ =>
      destruct b eqn:?; first [ solve [exfalso; contra] | runs_walk prim contra ]
  | |- runs _ (ret _) _ _ => apply runs_ret
  | |- runs _ (gets _) _ _ => apply runs_gets_sp
  | |- runs _ (if_debug _ _) _ _ => apply runs_if_debug; runs_walk prim contra
  | |- runs _ (if_set _ _) _ _ => apply runs_if_set; intros ?; runs_walk prim contra
  | |- _ => prim
  end.

(** What is known of a value read from the state. *)
Ltac known_levels :=
  repeat match goal with
  | H : exists mg, traced _ _ _ _ _ mg /\ ?x = minlevel mg |- _ =>
      let mg := fresh "mg" in
      let Hr := fresh "Hr" in
      destruct H as (mg & Hr & ->);
      rewrite (proj1 (proj1 Hr)) in *; clear mg Hr
  | H : exists mg, traced _ _ _ _ _ mg /\ ?x = maxlevel mg |- _ =>
      let mg := fresh "mg" in
      let Hr := fresh "Hr" in
      destruct H as (mg & Hr & ->);
      rewrite (proj1 (proj2 (proj1 Hr))) in *; clear mg Hr
  end.

Ltac runs_prim side :=
  first
    [ apply runs_traced_say
    | eapply runs_traced_note; cbn [List.filter essential app]; reflexivity
    | eapply runs_traced_invoke; [side .. | cbn [List.filter essential app]; reflexivity]
    | (apply runs_traced_say_norm || apply runs_traced_vec_op1
       || apply runs_traced_vec_op2 || apply runs_traced_at_); side ].

Section Recursion.

Context {V real : Type} `{VT : VectorType V real}.

Local Abbreviation MG := (Multigrid (V:=V) (real:=real)).

Variables (lo hi : Z) (E : list Event).
Hypothesis lo_nonneg : 0 <= lo.
Hypothesis hi_uint : hi < uint_mod.

(** The coarse-solver calls and descents of [level_step] at level
    [lo + d], in the order in which they happen. *)
Fixpoint step_trace (d : nat) (c : Cycle) : list Event :=
  match d with
  | O => [Invoke TheCoarse lo]
  | S d' =>
      let level := lo + Z.of_nat d in
      Descend false level c c :: step_trace d' c ++
      match d' with
      | O => []
      | S _ =>
          match c with
          | w_cycle => Descend true level w_cycle w_cycle :: step_trace d' w_cycle
          | f_cycle => Descend true level f_cycle v_cycle :: step_trace d' v_cycle
          | v_cycle => []
          end
      end
  end.

Lemma step_trace_S d' c :
  step_trace (S d') c =
  Descend false (lo + Z.of_nat (S d')) c c :: step_trace d' c ++
  match d' with
  | O => []
  | S _ =>
      match c with
      | w_cycle => Descend true (lo + Z.of_nat (S d')) w_cycle w_cycle :: step_trace d' w_cycle
      | f_cycle => Descend true (lo + Z.of_nat (S d')) f_cycle v_cycle :: step_trace d' v_cycle
      | v_cycle => []
      end
  end.
Proof. reflexivity. Qed.

Definition all_stores (s : StoreId) : Prop := True.
Definition v_stores (s : StoreId) : Prop := s <> Defect2.

Lemma level_step_runs fuel :
  forall d level c T,
    level = lo + Z.of_nat d -> level <= hi -> (d < fuel)%nat ->
    runs (traced lo hi all_stores E T) (level_step fuel level c)
         (traced lo hi all_stores E (rev (step_trace d c) ++ T)) (fun _ => True).
Proof.
  induction fuel as [| fuel IH]; intros d level c T Hlevel Hhi Hfuel; [lia |].
  simpl level_step.
  destruct d as [| d'].
  - assert (level = lo) as -> by lia.
    runs_walk ltac:(runs_prim ltac:(first [exact Logic.I | cbn [fst snd]; lia]))
              ltac:(known_levels; lia).
  - assert (Hw : wrap (level - 1) = level - 1)
      by (apply wrap_small; unfold is_uint; lia).
    assert (Hw' : wrap (lo + 1) = lo + 1)
      by (apply wrap_small; unfold is_uint; lia).
    rewrite !Hw.
    destruct d' as [| d''].
    + eapply runs_post.
      * runs_walk ltac:(first
          [ apply IH with (d := 0%nat); lia
          | runs_prim ltac:(first [exact Logic.I | cbn [fst snd]; lia]) ])
          ltac:(known_levels; rewrite ?Hw' in *; lia).
      * intros mg Hmg. subst level. exact Hmg.
    + destruct c; (eapply runs_post;
      [ runs_walk ltac:(first
          [ apply IH with (d := S d''); lia
          | runs_prim ltac:(first [exact Logic.I | cbn [fst snd]; lia]) ])
          ltac:(known_levels; rewrite ?Hw' in *; simpl Cycle_eqb in *;
                first [lia | discriminate])
      | ]).
      all: intros mg Hmg; subst level; rewrite (step_trace_S (S d''));
        cbn [rev]; rewrite ?rev_app_distr; cbn [rev app];
        rewrite <- ?app_assoc; cbn [app]; exact Hmg.
Qed.

(** The V-cycle reaches the coarse solver once. *)
Lemma level_v_step_runs fuel :
  forall d level T,
    level = lo + Z.of_nat d -> level <= hi -> (d < fuel)%nat ->
    runs (traced lo hi v_stores E T) (level_v_step fuel level)
         (traced lo hi v_stores E (Invoke TheCoarse lo :: T)) (fun _ => True).
Proof.
  induction fuel as [| fuel IH]; intros d level T Hlevel Hhi Hfuel; [lia |].
  simpl level_v_step.
  destruct d as [| d'].
  - assert (level = lo) as -> by lia.
    runs_walk ltac:(runs_prim ltac:(first [discriminate | cbn [fst snd]; lia]))
              ltac:(known_levels; lia).
  - assert (Hw : wrap (level - 1) = level - 1)
      by (apply wrap_small; unfold is_uint; lia).
    rewrite !Hw.
    runs_walk ltac:(first
      [ apply IH with (d := d'); lia
      | runs_prim ltac:(first [discriminate | cbn [fst snd]; lia]) ])
      ltac:(known_levels; lia).
Qed.

End Recursion.

(** ** The set-up of [cycle] *)

Section Setup.

Context {V real : Type} `{VT : VectorType V real}.

Local Abbreviation MG := (Multigrid (V:=V) (real:=real)).
Local Abbreviation Mg := (M MG).

Lemma runs_pre {A} (P P0 P' : MG -> Prop) (m : Mg A) Q :
  (forall mg, P mg -> P0 mg) -> runs P0 m P' Q -> runs P m P' Q.
Proof. intros Hw Hm mg HP. apply Hm. auto. Qed.

(** Normal termination and an invariant together. *)
Lemma runs_inv {A} (P P' I : MG -> Prop) (m : Mg A) Q Q' :
  runs P m P' Q -> inv I m Q' ->
  runs (fun mg => P mg /\ I mg) m (fun mg => P' mg /\ I mg) Q.
Proof.
  intros Hr Hi mg [HP HI]. destruct (Hr mg HP) as (a & mg' & Hrun & HP' & HQ).
  exists a, mg'. repeat split; try assumption.
  destruct (Hi mg HI) as [HI' _]. now rewrite Hrun in HI'.
Qed.

(** Everything [cycle] leaves alone before it starts the recursion. *)
Definition frame (mg : MG) :=
  (cycle_type mg, minlevel mg, maxlevel mg, defect mg,
   (matrix mg, coarse mg, transfer mg, pre_smooth mg, post_smooth mg),
   (edge_out mg, edge_in mg, edge_down mg, edge_up mg),
   (debug mg, deallog mg, events mg)).

Lemma frame_with_store s o (mg : MG) :
  s <> Defect -> frame (with_store s o mg) = frame mg.
Proof. destruct s; [congruence | reflexivity ..]. Qed.

Definition is_reinit (v : V) : Prop := exists x d, v = vreinit x d.

Variables (lo hi : Z) (mg0 : MG).
Hypothesis lo_nonneg : 0 <= lo.
Hypothesis lo_hi : lo <= hi.
Hypothesis hi_uint : hi < uint_mod - 1.

(** The stores in [S] span the range, and every slot below level [K s]
    of a store [s] other than the defect store has been shaped by
    [reinit]. *)
Definition primed (S : StoreId -> Prop) (K : StoreId -> Z) (mg : MG) : Prop :=
  frame mg = frame mg0 /\ ranged lo hi S mg /\
  forall s i v, s <> Defect -> S s -> i < K s ->
                ml_get (store s mg) i = Some v -> is_reinit v.

Definition bump (K : StoreId -> Z) (s : StoreId) (k : Z) : StoreId -> Z :=
  fun s' => if StoreId_eq_dec s' s then k else K s'.

Lemma runs_primed_resize (S : StoreId -> Prop) K s :
  s <> Defect ->
  runs (primed S K) (resize s) (primed (fun s' => s' = s \/ S s') (bump K s lo))
       (fun _ => True).
Proof.
  intros Hs. apply runs_modify. intros mg (Hf & (Hlo & Hhi & HS) & Hp).
  split; [| split].
  - now rewrite frame_with_store.
  - split; [| split]; [assumption .. |]. intros s' Hs'.
    destruct (StoreId_eq_dec s' s) as [-> | Hne].
    + rewrite store_with_store, Hlo, Hhi, ml_limit_resize by lia. auto.
    + rewrite store_with_store_ne by assumption. destruct Hs'; [contradiction | auto].
  - intros s' i v Hd Hs' Hi. unfold bump in Hi.
    destruct (StoreId_eq_dec s' s) as [-> | Hne].
    + rewrite store_with_store. unfold ml_get, ml_addressable. simpl ml_minlevel.
      rewrite Hlo. replace (lo <=? i) with false by lia. discriminate.
    + rewrite store_with_store_ne by assumption.
      destruct Hs'; [contradiction | eauto].
Qed.

Lemma runs_primed_reinit (S : StoreId -> Prop) K s k :
  s <> Defect -> S s -> S Defect -> lo <= k <= hi -> K s = k ->
  runs (primed S K) (vec_op2 vreinit (s, k) (Defect, k)) (primed S (bump K s (k + 1)))
       (fun _ => True).
Proof.
  intros Hs HSs HSd Hk HK. unfold vec_op2. cbn [fst snd].
  eapply runs_bind.
  { apply runs_at_. intros mg (_ & Hr & _). now apply (ranged_addressable lo hi S). }
  intros x _. eapply runs_bind.
  { apply runs_at_. intros mg (_ & Hr & _). now apply (ranged_addressable lo hi S). }
  intros d _. apply runs_assign. intros mg (Hf & Hr & Hp).
  assert (Ha : ml_addressable (store s mg) k = true)
    by now apply (ranged_addressable lo hi S).
  split; [assumption |]. split; [| split].
  - now rewrite frame_with_store.
  - now apply ranged_assign.
  - intros s' i v Hd Hs' Hi. unfold bump in Hi.
    destruct (StoreId_eq_dec s' s) as [-> | Hne].
    + rewrite store_with_store. intros Hg.
      apply ml_get_set in Hg; [| assumption].
      destruct Hg as [[_ ->] | [Hik Hg]]; [now exists x, d |].
      apply (Hp s i v); auto. lia.
    + rewrite store_with_store_ne by assumption. eauto.
Qed.

Lemma primed_weaken (S S' : StoreId -> Prop) (K K' : StoreId -> Z) mg :
  (forall s, S' s -> S s) -> (forall s, s <> Defect -> S' s -> K' s <= K s) ->
  primed S K mg -> primed S' K' mg.
Proof.
  intros HS HK (Hf & (Hlo & Hhi & Hr) & Hp). split; [assumption |]. split.
  - split; [| split]; auto.
  - intros s i v Hd Hs Hi. apply Hp; auto. specialize (HK s Hd Hs). lia.
Qed.

Lemma primed_cycle_type S K mg : primed S K mg -> cycle_type mg = cycle_type mg0.
Proof. intros [Hf _]. unfold frame in Hf. congruence. Qed.

(** The stores that [cycle] shapes. *)
Definition cycle_stores (s : StoreId) : Prop :=
  cycle_type mg0 = v_cycle -> s <> Defect2.

Lemma runs_reinit_level k :
  lo <= k <= hi ->
  runs (primed cycle_stores (fun _ => k)) (reinit_level k)
       (primed cycle_stores (fun _ => k + 1)) (fun _ => True).
Proof.
  intros Hk. unfold reinit_level.
  eapply runs_bind.
  { apply runs_primed_reinit; first
      [assumption | reflexivity | discriminate | unfold cycle_stores; congruence]. }
  intros _ _. eapply runs_bind.
  { apply runs_primed_reinit; first
      [assumption | reflexivity | discriminate | unfold cycle_stores; congruence]. }
  intros _ _. eapply runs_bind; [apply runs_gets_sp |].
  intros ct (mg & Hmg & ->). rewrite (primed_cycle_type _ _ _ Hmg).
  destruct (cycle_type mg0) eqn:Hct; simpl.
  - eapply runs_post; [apply runs_ret |].
    intros mg'. apply primed_weaken; [auto |]. intros s Hd Hs. unfold bump.
    assert (s <> Defect2) by (apply Hs; assumption).
    destruct s; simpl; try lia; congruence.
  - eapply runs_post.
    { apply runs_primed_reinit; first
        [assumption | reflexivity | discriminate | unfold cycle_stores; congruence]. }
    intros mg'. apply primed_weaken; [auto |]. intros s Hd Hs. unfold bump.
    destruct s; simpl; try lia; congruence.
  - eapply runs_post.
    { apply runs_primed_reinit; first
        [assumption | reflexivity | discriminate | unfold cycle_stores; congruence]. }
    intros mg'. apply primed_weaken; [auto |]. intros s Hd Hs. unfold bump.
    destruct s; simpl; try lia; congruence.
Qed.

Lemma runs_for_levels fuel :
  forall k, lo <= k <= hi + 1 -> (Z.to_nat (hi + 1 - k) < fuel)%nat ->
    runs (primed cycle_stores (fun _ => k)) (for_levels fuel k reinit_level)
         (primed cycle_stores (fun _ => hi + 1)) (fun _ => True).
Proof.
  induction fuel as [| fuel IH]; intros k Hk Hfuel; [lia |].
  simpl for_levels.
  eapply runs_bind; [apply runs_gets_sp |].
  intros maxl (mg & (_ & (_ & Hhi & _) & _) & ->). rewrite Hhi.
  destruct (k <=? hi) eqn:Hle.
  - eapply runs_bind; [apply runs_reinit_level; lia |]. intros _ _.
    rewrite wrap_small by (unfold is_uint; lia).
    apply IH; lia.
  - assert (k = hi + 1) as -> by lia. apply runs_ret.
Qed.

Lemma traced_weaken (S S' : StoreId -> Prop) E T (mg : MG) :
  (forall s, S' s -> S s) -> traced lo hi S E T mg -> traced lo hi S' E T mg.
Proof.
  intros HS [(Hlo & Hhi & Hr) Ht]. split; [| assumption].
  split; [| split]; auto.
Qed.

Lemma primed_traced S K mg :
  primed S K mg -> traced lo hi S (events mg0) [] mg.
Proof.
  intros (Hf & Hr & _). split; [assumption |]. exists [].
  rewrite app_nil_r. split; [| reflexivity]. unfold frame in Hf. congruence.
Qed.

(** The coarse-solver calls and descents of one [cycle]. *)
Definition cycle_trace : list Event :=
  match cycle_type mg0 with
  | v_cycle => [Invoke TheCoarse lo]
  | c => step_trace lo (Z.to_nat (hi - lo)) c
  end.

(** [cycle] returns normally when the defect store spans the level range;
    an invariant [I] of the recursion that holds after the set-up holds
    at the end. *)
Lemma cycle_runs (I : MG -> Prop) fuel :
  ranged lo hi (fun s => s = Defect) mg0 ->
  (Z.to_nat (hi - lo) + 1 < fuel)%nat ->
  (forall mg, primed cycle_stores (fun _ => hi + 1) mg -> I mg) ->
  (cycle_type mg0 = v_cycle -> inv I (level_v_step fuel hi) (fun _ => True)) ->
  (cycle_type mg0 <> v_cycle ->
   inv I (level_step fuel hi (cycle_type mg0)) (fun _ => True)) ->
  exists mg', cycle fuel mg0 = (Done tt, mg') /\
              traced lo hi cycle_stores (events mg0) (rev cycle_trace) mg' /\ I mg'.
Proof.
  intros Hr0 Hfuel HI Hv Hs.
  assert (Hrun : runs (primed (fun s => s = Defect) (fun _ => lo)) (cycle fuel)
                   (fun mg => traced lo hi cycle_stores (events mg0) (rev cycle_trace) mg /\ I mg)
                   (fun _ => True)).
  { unfold cycle.
    eapply runs_bind; [apply runs_primed_resize; discriminate |]. intros _ _.
    eapply runs_bind; [apply runs_primed_resize; discriminate |]. intros _ _.
    eapply runs_bind; [apply runs_gets_sp |].
    intros ct (mg & Hmg & ->). rewrite (primed_cycle_type _ _ _ Hmg). clear mg Hmg.
    eapply runs_bind with (P' := primed cycle_stores (fun _ => lo)) (Q := fun _ => True).
    { destruct (cycle_type mg0) eqn:Hct; simpl.
      - eapply runs_post; [apply runs_ret |].
        intros mg. apply primed_weaken.
        + intros s Hcs. specialize (Hcs Hct). destruct s; auto; congruence.
        + intros s Hd Hcs. unfold bump. destruct s; simpl; lia.
      - eapply runs_post; [apply runs_primed_resize; discriminate |].
        intros mg. apply primed_weaken.
        + intros s _. destruct s; auto.
        + intros s Hd Hcs. unfold bump. destruct s; simpl; lia.
      - eapply runs_post; [apply runs_primed_resize; discriminate |].
        intros mg. apply primed_weaken.
        + intros s _. destruct s; auto.
        + intros s Hd Hcs. unfold bump. destruct s; simpl; lia. }
    intros _ _. eapply runs_bind; [apply runs_gets_sp |].
    intros minl (mg & (_ & (Hlo & _) & _) & ->). rewrite Hlo. clear mg Hlo.
    eapply runs_bind; [apply (runs_for_levels fuel lo); lia |]. intros _ _.
    eapply runs_bind; [apply runs_gets_sp |].
    intros ct (mg & Hmg & ->). rewrite (primed_cycle_type _ _ _ Hmg). clear mg Hmg.
    eapply runs_bind; [apply runs_gets_sp |].
    intros maxl (mg & (_ & (_ & Hhi & _) & _) & ->). rewrite Hhi. clear mg Hhi.
    unfold cycle_trace.
    destruct (cycle_type mg0) eqn:Hct; simpl Cycle_eqb; cbv iota.
    - eapply runs_pre with
        (P0 := fun mg => traced lo hi v_stores (events mg0) [] mg /\ I mg).
      { intros mg Hmg. split; [| now apply HI].
        apply traced_weaken with (S := cycle_stores);
          [intros s Hs'; intros _; exact Hs' | now apply primed_traced with (K := fun _ => hi + 1)]. }
      eapply runs_post.
      { eapply runs_inv; [| exact (Hv eq_refl)].
        apply level_v_step_runs with (d := Z.to_nat (hi - lo)); lia. }
      intros mg [Ht HI']. split; [| assumption].
      apply traced_weaken with (S := v_stores); [| exact Ht].
      intros s Hcs. now apply Hcs.
    - eapply runs_pre with
        (P0 := fun mg => traced lo hi all_stores (events mg0) [] mg /\ I mg).
      { intros mg Hmg. split; [| now apply HI].
        apply traced_weaken with (S := cycle_stores);
          [intros s _; unfold cycle_stores; congruence
          | now apply primed_traced with (K := fun _ => hi + 1)]. }
      eapply runs_post.
      { eapply runs_inv; [| apply Hs; discriminate].
        apply level_step_runs with (d := Z.to_nat (hi - lo)); lia. }
      intros mg [Ht HI']. split; [| assumption].
      apply traced_weaken with (S := all_stores); [| rewrite app_nil_r in Ht; exact Ht].
      intros s _. exact Logic.I.
    - eapply runs_pre with
        (P0 := fun mg => traced lo hi all_stores (events mg0) [] mg /\ I mg).
      { intros mg Hmg. split; [| now apply HI].
        apply traced_weaken with (S := cycle_stores);
          [intros s _; unfold cycle_stores; congruence
          | now apply primed_traced with (K := fun _ => hi + 1)]. }
      eapply runs_post.
      { eapply runs_inv; [| apply Hs; discriminate].
        apply level_step_runs with (d := Z.to_nat (hi - lo)); lia. }
      intros mg [Ht HI']. split; [| assumption].
      apply traced_weaken with (S := all_stores); [| rewrite app_nil_r in Ht; exact Ht].
      intros s _. exact Logic.I. }
  destruct (Hrun mg0) as ([] & mg' & Hc & Hpost & _).
  { split; [reflexivity |]. split; [assumption |].
    intros s i v Hd ->. contradiction. }
  exists mg'. split; assumption.
Qed.

End Setup.

(** ** Runs with known stores

    [stores_are lo c X]: the minimal level, the coarse solver and the four
    stores of the state are the given ones. *)

Section Exact.

Context {V real : Type} `{VT : VectorType V real}.

Local Abbreviation MG := (Multigrid (V:=V) (real:=real)).



Variables (lo : Z) (c : MGCoarseGridBase (V:=V)).







End Exact.



Section OneLevel.

Context {V real : Type} `{VT : VectorType V real}.

Variables (lo : Z) (c : MGCoarseGridBase (V:=V)) (X : StoreId -> MGLevelObject (V:=V)).
Variables (s d x d2 : V).
Hypothesis solution_slot : ml_get (X Solution) lo = Some s.
Hypothesis defect_slot : ml_get (X Defect) lo = Some d.


Hypothesis scratch_slot : ml_get (X Scratch) lo = Some x.
Hypothesis defect2_slot : ml_get (X Defect2) lo = Some d2.


End OneLevel.

(** ** Counting events, and small facts the claims use *)

Section Counting.

Context {V real : Type} `{VT : VectorType V real}.

Local Abbreviation MG := (Multigrid (V:=V) (real:=real)).

Lemma uint_mod_eq : uint_mod = 4294967296.
Proof. reflexivity. Qed.

Lemma inv_True {A} (m : M MG A) : inv (fun _ => True) m (fun _ => True).
Proof. intros mg _. split; auto. Qed.

Lemma inv_equiv {A} (I I' : MG -> Prop) (m : M MG A) Q :
  (forall mg, I mg <-> I' mg) -> inv I m Q -> inv I' m Q.
Proof.
  intros He Hi mg HI. apply He in HI. destruct (Hi mg HI) as [HI' HQ].
  split; [now apply He | exact HQ].
Qed.

(** The number of calls of the coarse solver among some events. *)
Definition is_coarse_call (e : Event) : bool :=
  match e with
  | Invoke TheCoarse _ => true
  | _ => false
  end.

Definition coarse_calls (l : list Event) : nat :=
  length (List.filter is_coarse_call l).

Lemma coarse_calls_essential l :
  coarse_calls (List.filter essential l) = coarse_calls l.
Proof.
  unfold coarse_calls. induction l as [| e l IH]; [reflexivity |].
  destruct e as [[] lv | b lv f g]; simpl; auto.
Qed.

(** The descents among some events. *)
Definition is_descent (e : Event) : bool :=
  match e with
  | Descend _ _ _ _ => true
  | Invoke _ _ => false
  end.

Lemma is_descent_essential l :
  List.filter is_descent (List.filter essential l) = List.filter is_descent l.
Proof.
  induction l as [| e l IH]; [reflexivity |].
  destruct e as [[] lv | b lv f g]; simpl; auto; now rewrite IH.
Qed.

Lemma reinit_fails (mg : MG) (min_level max_level : Z) :
  ~ (get_minlevel (matrix mg) <= min_level /\
     max_level <= get_maxlevel (matrix mg) /\
     min_level <= max_level) ->
  exists a b, reinit min_level max_level mg = (Raised (ExcLowerRangeType a b), mg).
Proof.
  intros Hnot. unfold reinit, Assert, resize, bind, gets, modify, ret, raise.
  destruct (min_level >=? get_minlevel (matrix mg)) eqn:E1; [| eauto].
  destruct (max_level <=? get_maxlevel (matrix mg)) eqn:E2; [| eauto].
  destruct (min_level <=? max_level) eqn:E3; [| eauto].
  exfalso. apply Hnot. lia.
Qed.

End Counting.

(** ** Two runs that differ in the debug level

    [erase] forgets the debug level and the log; two states [agree] when
    they are equal up to these. *)

Section Debug.

Context {V real : Type} `{VT : VectorType V real}.

Local Abbreviation MG := (Multigrid (V:=V) (real:=real)).
Local Abbreviation Mg := (M MG).

Definition erase (mg : MG) : MG := with_debug 0 (with_deallog [] mg).

Definition agree (mg1 mg2 : MG) : Prop := erase mg1 = erase mg2.

Lemma agree_store s mg1 mg2 : agree mg1 mg2 -> store s mg1 = store s mg2.
Proof.
  intros H. change (store s (erase mg1) = store s (erase mg2)). now rewrite H.
Qed.

Lemma agree_field {A} (f : MG -> A) mg1 mg2 :
  (forall mg, f (erase mg) = f mg) -> agree mg1 mg2 -> f mg1 = f mg2.
Proof. intros Hf H. rewrite <- (Hf mg1), <- (Hf mg2). now rewrite H. Qed.

Lemma agree_with_store s o mg1 mg2 :
  agree mg1 mg2 -> agree (with_store s o mg1) (with_store s o mg2).
Proof.
  unfold agree. intros H.
  change (with_store s o (erase mg1) = with_store s o (erase mg2)). now rewrite H.
Qed.

Lemma agree_with_events e mg1 mg2 :
  agree mg1 mg2 ->
  agree (with_events (events mg1 ++ [e]) mg1) (with_events (events mg2 ++ [e]) mg2).
Proof.
  unfold agree. intros H.
  change (with_events (events (erase mg1) ++ [e]) (erase mg1) =
          with_events (events (erase mg2) ++ [e]) (erase mg2)).
  now rewrite H.
Qed.

(** Both runs return the same value, or both raise, or both run out of
    fuel; [Q] holds when they return. *)
Definition outcomes_match {A} (Q : Prop) (o1 o2 : Outcome A) : Prop :=
  match o1, o2 with
  | Done a, Done b => a = b /\ Q
  | Raised _, Raised _ => True
  | OutOfFuel, OutOfFuel => True
  | _, _ => False
  end.

(** [sim Sh m Q]: from two states that agree, the first satisfying [Sh],
    the two runs of [m] end in states that agree, the first satisfying
    [Sh], with matching outcomes. *)
Definition sim {A} (Sh : MG -> Prop) (m : Mg A) (Q : Prop) : Prop :=
  forall mg1 mg2, agree mg1 mg2 -> Sh mg1 ->
    agree (m mg1).2 (m mg2).2 /\ Sh (m mg1).2 /\
    outcomes_match Q (m mg1).1 (m mg2).1.

Section Rules.

Variable Sh : MG -> Prop.
Hypothesis Sh_assign : forall mg s i v,
  Sh mg -> ml_addressable (store s mg) i = true ->
  Sh (with_store s (ml_set (store s mg) i v) mg).
Hypothesis Sh_events : forall mg l, Sh mg -> Sh (with_events l mg).

Lemma sim_ret {A} (a : A) : sim Sh (ret a) True.
Proof. intros mg1 mg2 Ha HS. simpl. auto. Qed.

Lemma sim_out_of_fuel {A} : sim Sh (out_of_fuel (A:=A)) True.
Proof. intros mg1 mg2 Ha HS. simpl. auto. Qed.

Lemma sim_bind {A B} (m : Mg A) (k : A -> Mg B) Q R :
  sim Sh m Q -> (Q -> forall a, sim Sh (k a) R) -> sim Sh (bind m k) True.
Proof.
  intros Hm Hk mg1 mg2 Ha HS. destruct (Hm mg1 mg2 Ha HS) as (Ha' & HS' & Ho).
  unfold bind.
  destruct (m mg1) as [[a1 | e1 |] mg1'], (m mg2) as [[a2 | e2 |] mg2'];
    simpl in *; try contradiction; auto.
  destruct Ho as [<- HQ].
  destruct (Hk HQ a1 mg1' mg2' Ha' HS') as (Ha'' & HS'' & Ho'').
  repeat split; auto.
  destruct (k a1 mg1').1, (k a1 mg2').1; simpl in *; tauto.
Qed.

(** The same, keeping what both parts tell. *)
Lemma sim_bind_both {A B} (m : Mg A) (k : A -> Mg B) Q R :
  sim Sh m Q -> (Q -> forall a, sim Sh (k a) R) -> sim Sh (bind m k) (Q /\ R).
Proof.
  intros Hm Hk mg1 mg2 Ha HS. destruct (Hm mg1 mg2 Ha HS) as (Ha' & HS' & Ho).
  unfold bind.
  destruct (m mg1) as [[a1 | e1 |] mg1'], (m mg2) as [[a2 | e2 |] mg2'];
    simpl in *; try contradiction; auto.
  destruct Ho as [<- HQ].
  destruct (Hk HQ a1 mg1' mg2' Ha' HS') as (Ha'' & HS'' & Ho'').
  repeat split; auto.
  destruct (k a1 mg1').1, (k a1 mg2').1; simpl in *; tauto.
Qed.

Lemma sim_weaken {A} (m : Mg A) (Q Q' : Prop) :
  sim Sh m Q -> (Q -> Q') -> sim Sh m Q'.
Proof.
  intros Hm HQ mg1 mg2 Ha HS. destruct (Hm mg1 mg2 Ha HS) as (Ha' & HS' & Ho).
  repeat split; auto.
  destruct (m mg1).1, (m mg2).1; simpl in *; tauto.
Qed.

Lemma sim_if {A} (b : bool) (m1 m2 : Mg A) Q1 Q2 :
  sim Sh m1 Q1 -> sim Sh m2 Q2 -> sim Sh (if b then m1 else m2) True.
Proof. intros H1 H2. destruct b; eapply sim_weaken; eauto. Qed.

Lemma sim_gets {A} (f : MG -> A) :
  (forall mg, f (erase mg) = f mg) -> sim Sh (gets f) True.
Proof.
  intros Hf mg1 mg2 Ha HS. simpl. repeat split; auto.
  now apply agree_field.
Qed.

Lemma sim_at_ s i :
  sim Sh (at_ s i) (exists mg, Sh mg /\ ml_addressable (store s mg) i = true).
Proof.
  intros mg1 mg2 Ha HS. unfold at_. rewrite <- (agree_store s mg1 mg2 Ha).
  destruct (ml_get (store s mg1) i) as [v |] eqn:Hg; simpl; repeat split; auto.
  exists mg1. split; [assumption |]. eapply ml_get_Some; eassumption.
Qed.

Lemma sim_assign s i v :
  sim Sh (assign s i v) (exists mg, Sh mg /\ ml_addressable (store s mg) i = true).
Proof.
  intros mg1 mg2 Ha HS. unfold assign. rewrite <- (agree_store s mg1 mg2 Ha).
  destruct (ml_addressable (store s mg1) i) eqn:Hg; simpl; repeat split; auto.
  - now apply agree_with_store.
  - eauto.
Qed.

Lemma sim_note e : sim Sh (note e) True.
Proof.
  intros mg1 mg2 Ha HS. simpl. repeat split; auto.
  now apply agree_with_events.
Qed.

Lemma sim_vec_op1 op s i :
  sim Sh (vec_op1 op (s, i)) (exists mg, Sh mg /\ ml_addressable (store s mg) i = true).
Proof.
  unfold vec_op1. eapply sim_weaken.
  - eapply sim_bind_both; [apply sim_at_ |]. intros _ d. apply sim_assign.
  - tauto.
Qed.

Lemma sim_vec_op2 op s i s' i' :
  sim Sh (vec_op2 op (s, i) (s', i'))
      ((exists mg, Sh mg /\ ml_addressable (store s mg) i = true) /\
       (exists mg, Sh mg /\ ml_addressable (store s' mg) i' = true)).
Proof.
  unfold vec_op2. eapply sim_weaken.
  - eapply sim_bind_both; [apply sim_at_ |]. intros _ d.
    eapply sim_bind_both; [apply sim_at_ |]. intros _ x. apply sim_assign.
  - tauto.
Qed.

Lemma sim_invoke who method level s i s' i' :
  sim Sh (invoke who method level (s, i) (s', i'))
      ((exists mg, Sh mg /\ ml_addressable (store s mg) i = true) /\
       (exists mg, Sh mg /\ ml_addressable (store s' mg) i' = true)).
Proof.
  unfold invoke. eapply sim_weaken.
  - eapply sim_bind_both; [apply sim_at_ |]. intros _ d.
    eapply sim_bind_both; [apply sim_at_ |]. intros _ x.
    eapply sim_bind_both; [apply sim_note |]. intros _ _. apply sim_assign.
  - tauto.
Qed.

Lemma sim_if_set (edge : MG -> option MGMatrixBase) body Q :
  (forall mg, edge (erase mg) = edge mg) ->
  (forall e, sim Sh (body e) Q) -> sim Sh (if_set edge body) True.
Proof.
  intros He Hb. unfold if_set.
  eapply sim_bind; [now apply sim_gets |]. intros _ [e |].
  - eapply sim_weaken; [apply Hb | exact (fun _ => Logic.I)].
  - apply sim_ret.
Qed.

(** A statement that always returns and writes at most to the log. *)
Definition silent (body : Mg unit) : Prop :=
  forall mg, Sh mg -> (body mg).1 = Done tt /\ erase (body mg).2 = erase mg.

Hypothesis Sh_agree : forall mg mg', agree mg mg' -> Sh mg -> Sh mg'.

Lemma sim_if_debug n body : silent body -> sim Sh (if_debug n body) True.
Proof.
  intros Hb mg1 mg2 Ha HS. unfold if_debug, bind, gets.
  assert (HS2 : Sh mg2) by (eapply Sh_agree; eassumption).
  destruct (Hb mg1 HS) as [Hd1 He1], (Hb mg2 HS2) as [Hd2 He2].
  destruct (debug mg1 >? n), (debug mg2 >? n); cbn [ret fst snd].
  - destruct (body mg1) as [o1 m1], (body mg2) as [o2 m2]; simpl in *. subst.
    repeat split; [congruence |]. eapply Sh_agree; [| exact HS]. symmetry. exact He1.
  - destruct (body mg1) as [o1 m1]; simpl in *. subst.
    repeat split; [congruence |]. eapply Sh_agree; [| exact HS]. symmetry. exact He1.
  - destruct (body mg2) as [o2 m2]; simpl in *. subst.
    repeat split; [congruence | assumption].
  - repeat split; assumption.
Qed.

Lemma silent_say line : silent (say line).
Proof. intros mg HS. split; reflexivity. Qed.

Lemma silent_at_say s i (line : V -> list (LogItem real)) :
  (forall mg, Sh mg -> ml_addressable (store s mg) i = true) ->
  silent (bind (at_ s i) (fun x => say (line x))).
Proof.
  intros Hadd mg HS. unfold bind, at_.
  destruct (ml_get_addressable _ _ (Hadd mg HS)) as [v Hv]. rewrite Hv.
  split; reflexivity.
Qed.

End Rules.

End Debug.

Ltac sim_walk prim :=
  lazymatch goal with
  | |- sim _ (bind _ _) _ =>
      eapply sim_bind; [sim_walk prim | intros ? ?; sim_walk prim]
  | |- sim _ (if _ then _ else _) _ => eapply sim_if; sim_walk prim
  | |- sim _ (ret _) _ => apply sim_ret
  | |- sim _ (gets _) _ => apply sim_gets; reflexivity
  | |- sim _ out_of_fuel _ => apply sim_out_of_fuel
  | |- sim _ (if_set _ _) _ =>
      eapply sim_if_set; [reflexivity | intros ?; sim_walk prim]
  | |- _ => prim
  end.

Section DebugRecursion.

Context {V real : Type} `{VT : VectorType V real}.

Local Abbreviation MG := (Multigrid (V:=V) (real:=real)).

(** The stores of [mg] have the ranges of the stores of [D]. *)
Definition shaped (D mg : MG) : Prop :=
  forall s, ml_minlevel (store s mg) = ml_minlevel (store s D) /\
            ml_limit (store s mg) = ml_limit (store s D).

Lemma shaped_refl D : shaped D D.
Proof. intros s. auto. Qed.

Lemma shaped_addressable D mg s i :
  shaped D mg -> ml_addressable (store s mg) i = ml_addressable (store s D) i.
Proof. intros H. destruct (H s) as [Hm Hl]. unfold ml_addressable. now rewrite Hm, Hl. Qed.

Lemma shaped_assign D mg s i v :
  shaped D mg -> ml_addressable (store s mg) i = true ->
  shaped D (with_store s (ml_set (store s mg) i v) mg).
Proof.
  intros H _ s'. destruct (StoreId_eq_dec s' s) as [-> | Hne].
  - rewrite store_with_store, ml_limit_set. apply H.
  - rewrite store_with_store_ne by assumption. apply H.
Qed.

Lemma shaped_events D mg l : shaped D mg -> shaped D (with_events l mg).
Proof. intros H s. destruct s; [exact (H Defect) | exact (H Solution) | exact (H Scratch) | exact (H Defect2)]. Qed.

Lemma shaped_agree D mg mg' : agree mg mg' -> shaped D mg -> shaped D mg'.
Proof. intros Ha H s. rewrite <- (agree_store s mg mg' Ha). apply H. Qed.

Lemma shaped_known D s i :
  (exists mg, shaped D mg /\ ml_addressable (store s mg) i = true) ->
  forall mg, shaped D mg -> ml_addressable (store s mg) i = true.
Proof.
  intros (m & Hm & Ha) mg Hmg.
  rewrite (shaped_addressable D mg s i Hmg), <- (shaped_addressable D m s i Hm).
  exact Ha.
Qed.

Variable D : MG.

Ltac shaped_side :=
  first
    [ exact (shaped_assign D)
    | exact (shaped_events D)
    | exact (shaped_agree D) ].

Ltac silent_body :=
  repeat match goal with H : _ /\ _ |- _ => destruct H end;
  first
    [ apply silent_say
    | unfold say_norm; cbn [fst snd];
      apply silent_at_say; apply shaped_known; assumption ].

Ltac shaped_prim :=
  first
    [ apply sim_vec_op1; shaped_side
    | apply sim_vec_op2; shaped_side
    | apply sim_invoke; shaped_side
    | apply sim_note; shaped_side
    | apply sim_if_debug; [shaped_side | silent_body] ].

Lemma level_step_sim fuel :
  forall level c, sim (shaped D) (level_step fuel level c) True.
Proof.
  induction fuel as [| fuel IH]; intros level c; simpl level_step.
  - apply sim_out_of_fuel.
  - sim_walk ltac:(first [apply IH | shaped_prim]).
Qed.

(** The V-cycle, entered at a level whose defect vector exists. *)
Lemma level_v_step_sim_addressable fuel :
  forall level,
    (exists mg, shaped D mg /\ ml_addressable (store Defect mg) level = true) ->
    sim (shaped D) (level_v_step fuel level) True.
Proof.
  induction fuel as [| fuel IH]; intros level Hlevel; simpl level_v_step.
  - apply sim_out_of_fuel.
  - sim_walk ltac:(first
      [ apply IH;
        repeat match goal with H : _ /\ _ |- _ => destruct H end; assumption
      | shaped_prim ]).
Qed.

(** Entered at a level whose defect vector does not exist, the V-cycle
    raises before it writes to a store: at the norm of the defect when
    the debug level asks for it, at the first use of the defect vector
    otherwise. *)
Definition harmless {A} (m : M MG A) : Prop :=
  forall mg, erase (m mg).2 = erase mg /\ (m mg).1 <> OutOfFuel.

Definition doomed {A} (m : M MG A) : Prop :=
  forall mg, shaped D mg -> erase (m mg).2 = erase mg /\ exists e, (m mg).1 = Raised e.

Lemma harmless_bind {A B} (m : M MG A) (k : A -> M MG B) :
  harmless m -> (forall a, harmless (k a)) -> harmless (bind m k).
Proof.
  intros Hm Hk mg. destruct (Hm mg) as [He Ho]. unfold bind.
  destruct (m mg) as [[a | e |] mg']; simpl in *.
  - destruct (Hk a mg') as [He' Ho']. split; [congruence | assumption].
  - split; [assumption | discriminate].
  - contradiction.
Qed.

Lemma harmless_gets {A} (f : MG -> A) : harmless (gets f).
Proof. intros mg. split; [reflexivity | discriminate]. Qed.

Lemma harmless_ret {A} (a : A) : harmless (ret a).
Proof. intros mg. split; [reflexivity | discriminate]. Qed.

Lemma harmless_say line : harmless (say line).
Proof. intros mg. split; [reflexivity | discriminate]. Qed.

Lemma harmless_at_ s i : harmless (at_ s i).
Proof.
  intros mg. unfold at_. destruct (ml_get (store s mg) i);
    (split; [reflexivity | discriminate]).
Qed.

Lemma harmless_if_debug n body : harmless body -> harmless (if_debug n body).
Proof.
  intros Hb. unfold if_debug. apply harmless_bind; [apply harmless_gets |].
  intros d. destruct (d >? n); [assumption | apply harmless_ret].
Qed.

Lemma doomed_now {A B} (m : M MG A) (k : A -> M MG B) :
  doomed m -> doomed (bind m k).
Proof.
  intros Hm mg HS. destruct (Hm mg HS) as [He [e Ho]]. unfold bind.
  destruct (m mg) as [o mg']; simpl in *. subst o. eauto.
Qed.

Lemma doomed_later {A B} (m : M MG A) (k : A -> M MG B) :
  harmless m -> (forall a, doomed (k a)) -> doomed (bind m k).
Proof.
  intros Hm Hk mg HS. destruct (Hm mg) as [He Ho]. unfold bind.
  destruct (m mg) as [[a | e |] mg']; simpl in *.
  - destruct (Hk a mg') as [He' Ho'].
    + eapply shaped_agree; [| exact HS]. symmetry. exact He.
    + split; [congruence | assumption].
  - eauto.
  - contradiction.
Qed.

Lemma doomed_at_ s i :
  ml_addressable (store s D) i = false -> doomed (at_ s i).
Proof.
  intros Hna mg HS. unfold at_, ml_get.
  rewrite (shaped_addressable D mg s i HS), Hna. simpl. eauto.
Qed.

Lemma doomed_invoke who method level dst s i :
  ml_addressable (store s D) i = false ->
  doomed (invoke who method level dst (s, i)).
Proof.
  intros Hna. unfold invoke. apply doomed_later; [apply harmless_at_ |].
  intros d. apply doomed_now. now apply doomed_at_.
Qed.

Lemma doomed_sim {A} (m : M MG A) : doomed m -> sim (shaped D) m True.
Proof.
  intros Hm mg1 mg2 Ha HS.
  destruct (Hm mg1 HS) as [He1 [e1 Ho1]].
  destruct (Hm mg2 (shaped_agree D mg1 mg2 Ha HS)) as [He2 [e2 Ho2]].
  rewrite Ho1, Ho2. unfold agree. rewrite He1, He2.
  split; [exact Ha |]. split; [| exact Logic.I].
  eapply shaped_agree; [| exact HS]. symmetry. exact He1.
Qed.

Lemma level_v_step_doomed fuel level :
  ml_addressable (store Defect D) level = false ->
  doomed (level_v_step (S fuel) level).
Proof.
  intros Hna. simpl level_v_step.
  apply doomed_later; [apply harmless_if_debug, harmless_say |]. intros _.
  apply doomed_later.
  { apply harmless_if_debug. unfold say_norm.
    apply harmless_bind; [apply harmless_at_ | intros x; apply harmless_say]. }
  intros _. apply doomed_later; [apply harmless_gets |]. intros minl.
  destruct (level =? minl).
  - apply doomed_later; [apply harmless_if_debug, harmless_say |]. intros _.
    apply doomed_later; [apply harmless_gets |]. intros c.
    now apply doomed_invoke.
  - apply doomed_later; [apply harmless_if_debug, harmless_say |]. intros _.
    apply doomed_later; [apply harmless_gets |]. intros pre.
    apply doomed_now. now apply doomed_invoke.
Qed.

Lemma level_v_step_sim fuel level : sim (shaped D) (level_v_step fuel level) True.
Proof.
  destruct (ml_addressable (store Defect D) level) eqn:Ha.
  - apply level_v_step_sim_addressable. exists D. split; [apply shaped_refl | exact Ha].
  - destruct fuel as [| fuel]; [apply sim_out_of_fuel |].
    now apply doomed_sim, level_v_step_doomed.
Qed.

End DebugRecursion.

Section DebugCycle.

Context {V real : Type} `{VT : VectorType V real}.

Local Abbreviation MG := (Multigrid (V:=V) (real:=real)).

Definition any_shape (mg : MG) : Prop := True.

Lemma sim_any_shape {A} (m : M MG A) :
  (forall D, sim (shaped D) m True) -> sim any_shape m True.
Proof.
  intros Hm mg1 mg2 Ha _.
  destruct (Hm mg1 mg1 mg2 Ha (shaped_refl mg1)) as (Ha' & _ & Ho).
  repeat split; assumption.
Qed.

Lemma sim_modify (f : MG -> MG) :
  (forall mg, erase (f mg) = f (erase mg)) -> sim any_shape (modify f) True.
Proof.
  intros Hf mg1 mg2 Ha _. unfold modify. cbn [fst snd outcomes_match].
  repeat split. unfold agree in *. now rewrite !Hf, Ha.
Qed.

Lemma sim_resize s : sim any_shape (resize s) True.
Proof. apply sim_modify. reflexivity. Qed.

Lemma sim_Assert c e : sim any_shape (Assert c e) True.
Proof.
  destruct c; [apply sim_ret |].
  intros mg1 mg2 Ha HS. simpl. auto.
Qed.

Ltac any_prim :=
  first
    [ apply sim_resize
    | apply sim_vec_op2; intros; exact Logic.I
    | apply sim_any_shape; intros D; first [apply level_v_step_sim | apply level_step_sim] ].

Lemma for_levels_sim fuel body :
  (forall level, sim any_shape (body level) True) ->
  forall k, sim any_shape (for_levels fuel k body) True.
Proof.
  intros Hb. induction fuel as [| fuel IH]; intros k; simpl for_levels.
  - apply sim_out_of_fuel.
  - sim_walk ltac:(first [apply IH | apply Hb]).
Qed.

Lemma cycle_sim fuel : sim any_shape (cycle fuel) True.
Proof.
  unfold cycle.
  sim_walk ltac:(first
    [ apply for_levels_sim; intros level; sim_walk any_prim
    | any_prim ]).
Qed.

Lemma vcycle_sim fuel : sim any_shape (vcycle fuel) True.
Proof.
  unfold vcycle.
  sim_walk ltac:(first
    [ apply for_levels_sim; intros level; sim_walk any_prim
    | any_prim ]).
Qed.

Lemma reinit_sim min_level max_level : sim any_shape (reinit min_level max_level) True.
Proof.
  unfold reinit.
  sim_walk ltac:(first
    [ apply sim_Assert | apply sim_resize | apply sim_modify; reflexivity ]).
Qed.

Lemma perform_sim fuel op : sim any_shape (perform fuel op) True.
Proof.
  destruct op; cbn [perform].
  - apply reinit_sim.
  - unfold set_maxlevel. sim_walk ltac:(apply reinit_sim).
  - unfold set_minlevel. sim_walk ltac:(apply reinit_sim).
  - apply sim_modify. reflexivity.
  - apply sim_modify. reflexivity.
  - apply sim_modify. reflexivity.
  - apply cycle_sim.
  - apply vcycle_sim.
Qed.

(** What the caller reads after a cycle, and the scratch stores. *)
Definition numerical_results (mg : MG) :=
  (solution mg, defect mg, t mg, defect2 mg).

Lemma agree_numerical_results mg1 mg2 :
  agree mg1 mg2 -> numerical_results mg1 = numerical_results mg2.
Proof.
  intros Ha. unfold numerical_results.
  rewrite (agree_store Solution mg1 mg2 Ha : solution mg1 = solution mg2).
  rewrite (agree_store Defect mg1 mg2 Ha : defect mg1 = defect mg2).
  rewrite (agree_store Scratch mg1 mg2 Ha : t mg1 = t mg2).
  rewrite (agree_store Defect2 mg1 mg2 Ha : defect2 mg1 = defect2 mg2).
  reflexivity.
Qed.

End DebugCycle.

(** ** More fuel changes nothing

    [fuel_le m1 m2]: where [m1] does not run out of fuel, [m2] does the
    same. *)

Section Fuel.

Context {V real : Type} `{VT : VectorType V real}.

Local Abbreviation MG := (Multigrid (V:=V) (real:=real)).

Definition fuel_le {A} (m1 m2 : M MG A) : Prop :=
  forall mg, (m1 mg).1 = OutOfFuel \/ m1 mg = m2 mg.

Lemma fuel_le_refl {A} (m : M MG A) : fuel_le m m.
Proof. intros mg. now right. Qed.

Lemma fuel_le_bind {A B} (m1 m2 : M MG A) (k1 k2 : A -> M MG B) :
  fuel_le m1 m2 -> (forall a, fuel_le (k1 a) (k2 a)) ->
  fuel_le (bind m1 k1) (bind m2 k2).
Proof.
  intros Hm Hk mg. unfold bind. destruct (Hm mg) as [Ho | <-].
  - left. destruct (m1 mg) as [[a | e |] mg']; simpl in *; congruence.
  - destruct (m1 mg) as [[a | e |] mg']; [apply Hk | now right | now right].
Qed.

Ltac fuel_walk rec :=
  lazymatch goal with
  | |- fuel_le ?m ?m => apply fuel_le_refl
  | |- fuel_le (bind _ _) (bind _ _) =>
      apply fuel_le_bind; [fuel_walk rec | intros ?; fuel_walk rec]
  | |- fuel_le (if ?b then _ else _) (if ?b then _ else _) =>
      destruct b; fuel_walk rec
  | |- _ => rec
  end.

Lemma level_v_step_fuel_step fuel n :
  (forall l, fuel_le (level_v_step fuel l) (level_v_step n l)) ->
  forall level, fuel_le (level_v_step (S fuel) level) (level_v_step (S n) level).
Proof. intros IH level. simpl. fuel_walk ltac:(apply IH). Qed.

Lemma level_v_step_fuel fuel :
  forall level, fuel_le (level_v_step fuel level) (level_v_step (S fuel) level).
Proof.
  induction fuel as [| fuel IH]; intros level.
  - intros mg. now left.
  - now apply level_v_step_fuel_step.
Qed.

Lemma level_step_fuel_step fuel n :
  (forall l c, fuel_le (level_step fuel l c) (level_step n l c)) ->
  forall level c, fuel_le (level_step (S fuel) level c) (level_step (S n) level c).
Proof. intros IH level c. simpl. fuel_walk ltac:(apply IH). Qed.

Lemma level_step_fuel fuel :
  forall level c, fuel_le (level_step fuel level c) (level_step (S fuel) level c).
Proof.
  induction fuel as [| fuel IH]; intros level c.
  - intros mg. now left.
  - now apply level_step_fuel_step.
Qed.

Lemma for_levels_fuel_step fuel n body :
  (forall k, fuel_le (for_levels fuel k body) (for_levels n k body)) ->
  forall k, fuel_le (for_levels (S fuel) k body) (for_levels (S n) k body).
Proof. intros IH k. simpl. fuel_walk ltac:(apply IH). Qed.

Lemma for_levels_fuel fuel body :
  forall k, fuel_le (for_levels fuel k body) (for_levels (S fuel) k body).
Proof.
  induction fuel as [| fuel IH]; intros k.
  - intros mg. now left.
  - now apply for_levels_fuel_step.
Qed.

Lemma cycle_fuel fuel : fuel_le (cycle fuel) (cycle (S fuel)).
Proof.
  unfold cycle.
  fuel_walk ltac:(first
    [ apply for_levels_fuel | apply level_v_step_fuel | apply level_step_fuel ]).
Qed.

(** Where [cycle] has not run out of fuel, more fuel gives the same. *)
Lemma cycle_fuel_enough fuel (mg : MG) :
  (cycle fuel mg).1 <> OutOfFuel ->
  forall more, (fuel <= more)%nat -> cycle more mg = cycle fuel mg.
Proof.
  intros Hdone more Hle. induction Hle as [| more Hle IH]; [reflexivity |].
  destruct (cycle_fuel more mg) as [Ho | Heq].
  - rewrite IH in Ho. contradiction.
  - now rewrite <- Heq.
Qed.

End Fuel.

(** ** [cycle] and [vcycle] *)

Section EntryPoints.

Context {V real : Type} `{VT : VectorType V real}.

Local Abbreviation MG := (Multigrid (V:=V) (real:=real)).

Lemma vec_op2_cycle_type op dst src (mg : MG) :
  cycle_type (vec_op2 op dst src mg).2 = cycle_type mg.
Proof.
  unfold vec_op2, bind, at_, assign.
  destruct (ml_get (store dst.1 mg) dst.2); [| reflexivity].
  destruct (ml_get (store src.1 mg) src.2); [| reflexivity].
  destruct (ml_addressable (store dst.1 mg) dst.2); [| reflexivity].
  now destruct dst.1.
Qed.

(** The body of the loop of [vcycle]. *)
Definition reinit_v_level (level : Z) : M MG unit :=
  bind (vec_op2 vreinit (Solution, level) (Defect, level))
       (fun _ => vec_op2 vreinit (Scratch, level) (Defect, level)).

Lemma reinit_level_v level (mg : MG) :
  cycle_type mg = v_cycle ->
  reinit_level level mg = reinit_v_level level mg /\
  cycle_type (reinit_level level mg).2 = v_cycle.
Proof.
  intros Hct. unfold reinit_level, reinit_v_level, bind.
  pose proof (vec_op2_cycle_type vreinit (Solution, level) (Defect, level) mg) as H1.
  destruct (vec_op2 vreinit (Solution, level) (Defect, level) mg) as [[[] | e |] mg1];
    cbn [snd] in H1; [| split; [reflexivity | cbn [snd]; now rewrite H1] ..].
  cbv beta iota.
  pose proof (vec_op2_cycle_type vreinit (Scratch, level) (Defect, level) mg1) as H2.
  destruct (vec_op2 vreinit (Scratch, level) (Defect, level) mg1) as [[[] | e |] mg2];
    cbn [snd] in H2; [| split; [reflexivity | cbn [snd]; now rewrite H2, H1] ..].
  unfold gets. rewrite H2, H1, Hct. cbn [Cycle_eqb negb ret snd]. split; [reflexivity | now rewrite H2, H1].
Qed.

Lemma for_levels_v fuel :
  forall k (mg : MG),
    cycle_type mg = v_cycle ->
    for_levels fuel k reinit_level mg = for_levels fuel k reinit_v_level mg /\
    cycle_type (for_levels fuel k reinit_level mg).2 = v_cycle.
Proof.
  induction fuel as [| fuel IH]; intros k mg Hct; cbn [for_levels].
  - split; [reflexivity | exact Hct].
  - unfold bind, gets. cbv beta iota.
    destruct (k <=? maxlevel mg); [| split; [reflexivity | exact Hct]].
    destruct (reinit_level_v k mg Hct) as [<- Hct1].
    destruct (reinit_level k mg) as [[[] | e |] mg1]; cbn [snd] in Hct1;
      [| split; [reflexivity | exact Hct1] ..].
    apply IH. exact Hct1.
Qed.

Lemma cycle_loop fuel :
  cycle fuel =
  bind (resize Solution) (fun _ => bind (resize Scratch) (fun _ =>
  bind (gets cycle_type) (fun ct =>
  bind (if negb (Cycle_eqb ct v_cycle) then resize Defect2 else ret tt) (fun _ =>
  bind (gets minlevel) (fun minl =>
  bind (for_levels fuel minl reinit_level) (fun _ =>
  bind (gets cycle_type) (fun ct' => bind (gets maxlevel) (fun maxl =>
  if Cycle_eqb ct' v_cycle then level_v_step fuel maxl
  else level_step fuel maxl ct')))))))).
Proof. reflexivity. Qed.

Lemma vcycle_loop fuel :
  vcycle fuel =
  bind (resize Solution) (fun _ => bind (resize Scratch) (fun _ =>
  bind (gets minlevel) (fun minl =>
  bind (for_levels fuel minl reinit_v_level) (fun _ =>
  bind (gets maxlevel) (fun maxl => level_v_step fuel maxl))))).
Proof. reflexivity. Qed.

Lemma cycle_is_vcycle fuel (mg : MG) :
  cycle_type mg = v_cycle -> cycle fuel mg = vcycle fuel mg.
Proof.
  intros Hct. rewrite cycle_loop, vcycle_loop.
  unfold bind, resize, modify, gets. cbv beta iota.
  set (mg1 := with_store Scratch _ _).
  assert (Hct1 : cycle_type mg1 = v_cycle) by exact Hct.
  rewrite Hct1. cbn [Cycle_eqb negb ret].
  destruct (for_levels_v fuel (minlevel mg1) mg1 Hct1) as [<- Hct2].
  destruct (for_levels fuel (minlevel mg1) reinit_level mg1) as [[[] | e |] mg2];
    cbn [snd] in Hct2; [| reflexivity ..].
  rewrite Hct2. reflexivity.
Qed.

(** The stores that [cycle] resizes hold nothing of their old contents
    afterwards. *)
Lemma cycle_forgets fuel (mg : MG) S' T' :
  cycle fuel (with_store Solution S' (with_store Scratch T' mg)) = cycle fuel mg.
Proof. reflexivity. Qed.

Lemma cycle_forgets_defect2 fuel (mg : MG) D' :
  cycle_type mg <> v_cycle -> cycle fuel (with_store Defect2 D' mg) = cycle fuel mg.
Proof.
  intros Hct. unfold cycle, bind, resize, modify, gets.
  cbn [cycle_type with_store]. destruct (cycle_type mg); [congruence | reflexivity ..].
Qed.

Lemma vcycle_forgets fuel (mg : MG) S' T' :
  vcycle fuel (with_store Solution S' (with_store Scratch T' mg)) = vcycle fuel mg.
Proof. reflexivity. Qed.

End EntryPoints.

(** ** The level window *)

Section Window.

Context {V real : Type} `{VT : VectorType V real}.

Local Abbreviation MG := (Multigrid (V:=V) (real:=real)).

Lemma reinit_ok (mg : MG) (lo hi : Z) :
  get_minlevel (matrix mg) <= lo -> hi <= get_maxlevel (matrix mg) -> lo <= hi ->
  reinit lo hi mg = (Done tt, with_store Defect (ml_resize lo hi) (with_levels lo hi mg)).
Proof.
  intros H1 H2 H3. unfold reinit, Assert, resize, bind, gets, modify, ret, raise.
  replace (lo >=? get_minlevel (matrix mg)) with true by lia.
  replace (hi <=? get_maxlevel (matrix mg)) with true by lia.
  replace (lo <=? hi) with true by lia.
  reflexivity.
Qed.


End Window.

(** ** What a cycle leaves alone *)

Section Kept.

Context {V real : Type} `{VT : VectorType V real}.

Local Abbreviation MG := (Multigrid (V:=V) (real:=real)).

(** Everything the setters and [reinit] configure. *)
Definition settings (mg : MG) :=
  (cycle_type mg, minlevel mg, maxlevel mg,
   (matrix mg, coarse mg, transfer mg, pre_smooth mg, post_smooth mg),
   (edge_out mg, edge_in mg, edge_down mg, edge_up mg), debug mg).

(** The range over which the defect store is addressable. *)
Definition defect_range (mg : MG) := (ml_minlevel (defect mg), ml_limit (defect mg)).

(** The settings and the range of the defect store are those of [mg0],
    and so is every store outside [W]. *)
Definition kept (W : StoreId -> Prop) (mg0 mg : MG) : Prop :=
  settings mg = settings mg0 /\ defect_range mg = defect_range mg0 /\
  forall s, ~ W s -> store s mg = store s mg0.

Lemma kept_refl W mg : kept W mg mg.
Proof. repeat split. Qed.

Lemma kept_with_store W mg0 mg s o :
  W s -> (s = Defect -> ml_minlevel o = ml_minlevel (defect mg) /\
                        ml_limit o = ml_limit (defect mg)) ->
  kept W mg0 mg -> kept W mg0 (with_store s o mg).
Proof.
  intros HW Hd (Hs & Hr & Hk). split; [| split].
  - rewrite <- Hs. now destruct s.
  - rewrite <- Hr. unfold defect_range.
    destruct s; try reflexivity. destruct (Hd eq_refl) as [H1 H2].
    cbn [defect with_store]. now rewrite H1, H2.
  - intros s' Hs'. rewrite store_with_store_ne; [now apply Hk |].
    intros ->. contradiction.
Qed.

Lemma kept_assign W mg0 mg s i v :
  W s -> kept W mg0 mg -> kept W mg0 (with_store s (ml_set (store s mg) i v) mg).
Proof.
  intros HW. apply kept_with_store; [assumption |].
  intros ->. split; [reflexivity | apply ml_limit_set].
Qed.

Lemma kept_resize W mg0 s :
  W s -> s <> Defect -> inv (kept W mg0) (resize s) (fun _ => True).
Proof.
  intros HW Hs. apply inv_modify. intros mg. apply kept_with_store; [assumption |].
  intros ->. contradiction.
Qed.

Lemma kept_equiv W W' mg0 mg :
  (forall s, W s <-> W' s) -> kept W mg0 mg <-> kept W' mg0 mg.
Proof.
  intros He. unfold kept. split; intros (Hs & Hr & Hk); repeat split; try assumption.
  - intros s Hn. apply Hk. now rewrite He.
  - intros s Hn. apply Hk. now rewrite <- He.
Qed.

Lemma kept_cycle_type W mg0 ct :
  (exists mg, kept W mg0 mg /\ ct = cycle_type mg) -> ct = cycle_type mg0.
Proof. intros (mg & (Hs & _) & ->). unfold settings in Hs. congruence. Qed.

Variable mg0 : MG.

Ltac kept_side :=
  first
    [ exact Logic.I
    | discriminate
    | intros; exact Logic.I
    | intros; apply kept_assign; assumption
    | apply inv_modify; intros; assumption
    | intros; assumption ].

Ltac kept_prim writable :=
  inv_prim (fun _ : V => True) (fun _ : StoreId => True) writable kept_side.

Lemma level_v_step_kept fuel :
  forall level, inv (kept v_stores mg0) (level_v_step fuel level) (fun _ => True).
Proof.
  induction fuel as [| fuel IH]; intros level; simpl.
  - apply inv_out_of_fuel.
  - inv_walk ltac:(first [apply IH | kept_prim (fun s => s <> Defect2)]).
Qed.

Lemma level_step_kept fuel :
  forall level c, inv (kept all_stores mg0) (level_step fuel level c) (fun _ => True).
Proof.
  induction fuel as [| fuel IH]; intros level c; simpl.
  - apply inv_out_of_fuel.
  - inv_walk ltac:(first [apply IH | kept_prim (fun _ : StoreId => True)]).
Qed.

Lemma for_levels_v_kept fuel :
  forall k, inv (kept v_stores mg0) (for_levels fuel k reinit_v_level) (fun _ => True).
Proof.
  induction fuel as [| fuel IH]; intros k; simpl.
  - apply inv_out_of_fuel.
  - unfold reinit_v_level.
    inv_walk ltac:(first [apply IH | kept_prim (fun s => s <> Defect2)]).
Qed.

Lemma vcycle_kept fuel : inv (kept v_stores mg0) (vcycle fuel) (fun _ => True).
Proof.
  rewrite vcycle_loop.
  inv_walk ltac:(first
    [ apply for_levels_v_kept
    | apply level_v_step_kept
    | apply kept_resize; discriminate ]).
Qed.

(** The stores that [cycle] may write. *)
Definition cycle_writes (s : StoreId) : Prop :=
  s = Defect2 -> cycle_type mg0 <> v_cycle.

Lemma for_levels_kept fuel :
  forall k, inv (kept cycle_writes mg0) (for_levels fuel k reinit_level) (fun _ => True).
Proof.
  induction fuel as [| fuel IH]; intros k; simpl.
  - apply inv_out_of_fuel.
  - unfold reinit_level.
    inv_walk ltac:(first
      [ apply IH
      | match goal with
        | H : exists mg, kept _ _ mg /\ ?ct = cycle_type mg,
          E : negb (Cycle_eqb ?ct v_cycle) = true |- _ =>
            apply kept_cycle_type in H; subst ct;
            eapply inv_vec_op2 with (P := fun _ : V => True) (Rd := fun _ : StoreId => True)
                                    (W := cycle_writes);
            [ intros; exact Logic.I
            | intros; apply kept_assign; assumption
            | exact Logic.I | exact Logic.I
            | intros _; destruct (cycle_type mg0); [discriminate E | discriminate ..]
            | intros; exact Logic.I ]
        end
      | inv_prim (fun _ : V => True) (fun _ : StoreId => True)
                 (fun s => s <> Defect2)
                 ltac:(first [ kept_side
                             | intros; apply kept_assign;
                               [intros ?; congruence | assumption] ]) ]).
Qed.

Lemma cycle_kept fuel : inv (kept cycle_writes mg0) (cycle fuel) (fun _ => True).
Proof.
  rewrite cycle_loop.
  inv_walk ltac:(first
    [ apply for_levels_kept
    | match goal with
      | H : exists mg, kept _ _ mg /\ ?ct = cycle_type mg |- inv _ (resize Defect2) _ =>
          apply kept_cycle_type in H; subst ct;
          apply kept_resize; [| discriminate];
          intros _; destruct (cycle_type mg0); [discriminate | discriminate ..]
      | H : exists mg, kept _ _ mg /\ ?ct = cycle_type mg |- inv _ (level_v_step _ _) _ =>
          apply kept_cycle_type in H; subst ct;
          apply inv_equiv with (I := kept v_stores mg0);
          [ intros mg; apply kept_equiv; intros s; unfold cycle_writes, v_stores;
            destruct (cycle_type mg0); [| discriminate ..];
            split; [intros Hs Hd2 _; contradiction | intros Hs Hd2; now apply Hs]
          | apply level_v_step_kept ]
      | H : exists mg, kept _ _ mg /\ ?ct = cycle_type mg |- inv _ (level_step _ _ _) _ =>
          apply kept_cycle_type in H; subst ct;
          apply inv_equiv with (I := kept all_stores mg0);
          [ intros mg; apply kept_equiv; intros s; unfold cycle_writes, all_stores;
            destruct (cycle_type mg0); [discriminate | ..];
            (split; [intros _ _; discriminate | intros; exact Logic.I])
          | apply level_step_kept ]
      end
    | apply kept_resize; [intros ?; congruence | discriminate] ]).
Qed.

End Kept.

(** A walker like [inv_walk], with the treatment of [if (debug>n)] left
    to [dbg]. *)
Ltac inv_walk_with dbg prim :=
  lazymatch goal with
  | |- inv _ (bind _ _) _ =>
      let H := fresh "H" in
      eapply inv_bind;
        [inv_walk_with dbg prim | intros ? H; cbv beta in H; inv_walk_with dbg prim]
  | |- inv _ (if ?b then _ else _) _ =>
      destruct b eqn:?; inv_walk_with dbg prim
  | |- inv _ (ret _) _ => apply inv_ret; exact Logic.I
  | |- inv _ (gets _) _ => apply inv_gets_sp
  | |- inv _ out_of_fuel _ => apply inv_out_of_fuel
  | |- inv _ (if_debug _ _) _ => dbg
  | |- inv _ (if_set _ _) _ =>
      let H := fresh "H" in
      eapply inv_if_set_sp; intros ? H; cbv beta in H; inv_walk_with dbg prim
  | |- _ => prim
  end.

(** ** With the debug level at zero nothing is logged *)

Section Quiet.

Context {V real : Type} `{VT : VectorType V real}.

Local Abbreviation MG := (Multigrid (V:=V) (real:=real)).

Definition quiet (L : list (list (LogItem real))) (mg : MG) : Prop :=
  debug mg <= 0 /\ deallog mg = L.

Lemma inv_if_debug_off (I : MG -> Prop) n body :
  (forall mg, I mg -> debug mg <= n) -> inv I (if_debug n body) (fun _ => True).
Proof.
  intros Hd mg HI. specialize (Hd mg HI). unfold if_debug, bind, gets.
  replace (debug mg >? n) with false by lia. simpl. auto.
Qed.

Variable L : list (list (LogItem real)).

Ltac quiet_dbg := apply inv_if_debug_off; intros ? [? _]; lia.

Ltac quiet_side :=
  first
    [ exact Logic.I
    | intros; exact Logic.I
    | apply inv_modify; intros; assumption
    | intros; assumption ].

Ltac quiet_prim :=
  inv_prim (fun _ : V => True) (fun _ : StoreId => True) (fun _ : StoreId => True)
           quiet_side.

Lemma level_v_step_quiet fuel :
  forall level, inv (quiet L) (level_v_step fuel level) (fun _ => True).
Proof.
  induction fuel as [| fuel IH]; intros level; simpl.
  - apply inv_out_of_fuel.
  - inv_walk_with quiet_dbg ltac:(first [apply IH | quiet_prim]).
Qed.

Lemma level_step_quiet fuel :
  forall level c, inv (quiet L) (level_step fuel level c) (fun _ => True).
Proof.
  induction fuel as [| fuel IH]; intros level c; simpl.
  - apply inv_out_of_fuel.
  - inv_walk_with quiet_dbg ltac:(first [apply IH | quiet_prim]).
Qed.

Lemma for_levels_quiet fuel body :
  (forall level, inv (quiet L) (body level) (fun _ => True)) ->
  forall k, inv (quiet L) (for_levels fuel k body) (fun _ => True).
Proof.
  intros Hb. induction fuel as [| fuel IH]; intros k; simpl.
  - apply inv_out_of_fuel.
  - inv_walk_with quiet_dbg ltac:(first [apply IH | apply Hb]).
Qed.

Lemma cycle_quiet fuel : inv (quiet L) (cycle fuel) (fun _ => True).
Proof.
  rewrite cycle_loop.
  inv_walk_with quiet_dbg ltac:(first
    [ apply for_levels_quiet; intros level; unfold reinit_level;
      inv_walk_with quiet_dbg quiet_prim
    | apply level_v_step_quiet
    | apply level_step_quiet
    | apply inv_modify; intros; assumption ]).
Qed.

Lemma vcycle_quiet fuel : inv (quiet L) (vcycle fuel) (fun _ => True).
Proof.
  rewrite vcycle_loop.
  inv_walk_with quiet_dbg ltac:(first
    [ apply for_levels_quiet; intros level; unfold reinit_v_level;
      inv_walk_with quiet_dbg quiet_prim
    | apply level_v_step_quiet
    | apply inv_modify; intros; assumption ]).
Qed.

End Quiet.

(** ** Which collaborator is called where *)

Section Calls.

Context {V real : Type} `{VT : VectorType V real}.

Local Abbreviation MG := (Multigrid (V:=V) (real:=real)).

(** The coarse solver works on the minimal level and nothing else does;
    an edge operator is called only when its slot is set. *)
Definition call_ok (mg0 : MG) (e : Event) : Prop :=
  match e with
  | Invoke TheCoarse level => level = minlevel mg0
  | Invoke who level =>
      level <> minlevel mg0 /\
      match who with
      | TheEdgeOut => edge_out mg0 <> None
      | TheEdgeIn => edge_in mg0 <> None
      | TheEdgeDown => edge_down mg0 <> None
      | TheEdgeUp => edge_up mg0 <> None
      | _ => True
      end
  | Descend _ level _ _ => level <> minlevel mg0
  end.

Definition disciplined (mg0 mg : MG) : Prop :=
  settings mg = settings mg0 /\
  exists new, events mg = events mg0 ++ new /\ Forall (call_ok mg0) new.

Lemma disciplined_refl mg : disciplined mg mg.
Proof. split; [reflexivity |]. exists []. now rewrite app_nil_r. Qed.

Lemma disciplined_note mg0 e :
  call_ok mg0 e -> inv (disciplined mg0) (note e) (fun _ => True).
Proof.
  intros He. apply inv_modify. intros mg [Hs (new & Hev & Hok)].
  split; [exact Hs |]. exists (new ++ [e]). simpl events.
  rewrite Hev, <- app_assoc. split; [reflexivity |].
  apply Forall_app. split; [assumption | now constructor].
Qed.

Lemma disciplined_minlevel mg0 x :
  (exists mg, disciplined mg0 mg /\ x = minlevel mg) -> x = minlevel mg0.
Proof. intros (mg & [Hs _] & ->). unfold settings in Hs. congruence. Qed.

Lemma disciplined_edge_out mg0 e :
  (exists mg, disciplined mg0 mg /\ edge_out mg = Some e) -> edge_out mg0 <> None.
Proof. intros (mg & [Hs _] & He). unfold settings in Hs. congruence. Qed.

Lemma disciplined_edge_in mg0 e :
  (exists mg, disciplined mg0 mg /\ edge_in mg = Some e) -> edge_in mg0 <> None.
Proof. intros (mg & [Hs _] & He). unfold settings in Hs. congruence. Qed.

Lemma disciplined_edge_down mg0 e :
  (exists mg, disciplined mg0 mg /\ edge_down mg = Some e) -> edge_down mg0 <> None.
Proof. intros (mg & [Hs _] & He). unfold settings in Hs. congruence. Qed.

Lemma disciplined_edge_up mg0 e :
  (exists mg, disciplined mg0 mg /\ edge_up mg = Some e) -> edge_up mg0 <> None.
Proof. intros (mg & [Hs _] & He). unfold settings in Hs. congruence. Qed.

Variable mg0 : MG.

Ltac call_facts :=
  repeat match goal with
  | H : exists mg, disciplined _ mg /\ ?x = minlevel mg |- _ =>
      apply disciplined_minlevel in H; subst x
  | H : exists mg, disciplined _ mg /\ edge_out mg = Some _ |- _ =>
      apply disciplined_edge_out in H
  | H : exists mg, disciplined _ mg /\ edge_in mg = Some _ |- _ =>
      apply disciplined_edge_in in H
  | H : exists mg, disciplined _ mg /\ edge_down mg = Some _ |- _ =>
      apply disciplined_edge_down in H
  | H : exists mg, disciplined _ mg /\ edge_up mg = Some _ |- _ =>
      apply disciplined_edge_up in H
  end.

Ltac call_side :=
  first
    [ exact Logic.I
    | intros; exact Logic.I
    | apply disciplined_note; call_facts; cbn [call_ok];
      first [lia | split; [lia | first [assumption | exact Logic.I]]]
    | apply inv_modify; intros; assumption
    | intros; assumption ].

Ltac call_prim :=
  inv_prim (fun _ : V => True) (fun _ : StoreId => True) (fun _ : StoreId => True)
           call_side.

Lemma level_v_step_calls fuel :
  forall level, inv (disciplined mg0) (level_v_step fuel level) (fun _ => True).
Proof.
  induction fuel as [| fuel IH]; intros level; simpl.
  - apply inv_out_of_fuel.
  - inv_walk ltac:(first [apply IH | call_prim]).
Qed.

Lemma level_step_calls fuel :
  forall level c, inv (disciplined mg0) (level_step fuel level c) (fun _ => True).
Proof.
  induction fuel as [| fuel IH]; intros level c; simpl.
  - apply inv_out_of_fuel.
  - inv_walk ltac:(first [apply IH | call_prim]).
Qed.

Lemma for_levels_calls fuel body :
  (forall level, inv (disciplined mg0) (body level) (fun _ => True)) ->
  forall k, inv (disciplined mg0) (for_levels fuel k body) (fun _ => True).
Proof.
  intros Hb. induction fuel as [| fuel IH]; intros k; simpl.
  - apply inv_out_of_fuel.
  - inv_walk ltac:(first [apply IH | apply Hb]).
Qed.

Lemma cycle_calls fuel : inv (disciplined mg0) (cycle fuel) (fun _ => True).
Proof.
  rewrite cycle_loop.
  inv_walk ltac:(first
    [ apply for_levels_calls; intros level; unfold reinit_level; inv_walk call_prim
    | apply level_v_step_calls
    | apply level_step_calls
    | apply inv_modify; intros; assumption ]).
Qed.

Lemma vcycle_calls fuel : inv (disciplined mg0) (vcycle fuel) (fun _ => True).
Proof.
  rewrite vcycle_loop.
  inv_walk ltac:(first
    [ apply for_levels_calls; intros level; unfold reinit_v_level; inv_walk call_prim
    | apply level_v_step_calls
    | apply inv_modify; intros; assumption ]).
Qed.

End Calls.

(** ** Every call is made on a level of the window *)

Section Windowed.

Context {V real : Type} `{VT : VectorType V real}.

Local Abbreviation MG := (Multigrid (V:=V) (real:=real)).


Variables (lo hi : Z) (mg0 : MG).
Hypothesis lo_nonneg : 0 <= lo.
Hypothesis hi_uint : hi < uint_mod.











Hypothesis lo_hi : lo <= hi.



End Windowed.

(** ** How often the coarse solver is called *)

Section CoarseSolves.

Variable lo : Z.

(** The number of coarse solves of one cycle over [d + 1] levels. *)
Definition coarse_solves (c : Cycle) (d : nat) : nat :=
  match c with
  | v_cycle => 1
  | w_cycle => 2 ^ (d - 1)
  | f_cycle => Nat.max 1 d
  end.

Lemma coarse_calls_app l1 l2 :
  coarse_calls (l1 ++ l2) = (coarse_calls l1 + coarse_calls l2)%nat.
Proof. unfold coarse_calls. now rewrite List.filter_app, length_app. Qed.

Lemma step_trace_coarse_v d : coarse_calls (step_trace lo d v_cycle) = 1%nat.
Proof.
  induction d as [| d' IH]; [reflexivity |].
  rewrite step_trace_S. change (coarse_calls (?e :: ?l)) with (coarse_calls l).
  rewrite coarse_calls_app, IH. now destruct d'.
Qed.

Lemma step_trace_coarse_w d : coarse_calls (step_trace lo (S d) w_cycle) = (2 ^ d)%nat.
Proof.
  induction d as [| d' IH]; [reflexivity |].
  rewrite step_trace_S.
  change (coarse_calls (Descend false ?a ?b ?c :: ?l)) with (coarse_calls l).
  rewrite coarse_calls_app.
  change (coarse_calls (Descend true ?a ?b ?c :: ?l)) with (coarse_calls l).
  rewrite IH. rewrite Nat.pow_succ_r'. lia.
Qed.

Lemma step_trace_coarse_f d : coarse_calls (step_trace lo (S d) f_cycle) = S d.
Proof.
  induction d as [| d' IH]; [reflexivity |].
  rewrite step_trace_S.
  change (coarse_calls (Descend false ?a ?b ?c :: ?l)) with (coarse_calls l).
  rewrite coarse_calls_app.
  change (coarse_calls (Descend true ?a ?b ?c :: ?l)) with (coarse_calls l).
  rewrite IH, step_trace_coarse_v. lia.
Qed.

Lemma step_trace_coarse d c : coarse_calls (step_trace lo d c) = coarse_solves c d.
Proof.
  destruct d as [| d]; [now destruct c |].
  destruct c; cbn [coarse_solves].
  - apply step_trace_coarse_v.
  - rewrite step_trace_coarse_w. f_equal. lia.
  - rewrite step_trace_coarse_f. lia.
Qed.

End CoarseSolves.

(** ** The defect store spans the level window *)

Section Spans.

Context {V real : Type} `{VT : VectorType V real}.

Local Abbreviation MG := (Multigrid (V:=V) (real:=real)).

Definition spans (mg : MG) : Prop :=
  minlevel mg <= maxlevel mg /\
  ml_minlevel (defect mg) = minlevel mg /\ ml_limit (defect mg) = maxlevel mg + 1.

Lemma spans_kept W (mg0 mg : MG) : kept W mg0 mg -> spans mg0 -> spans mg.
Proof.
  intros (Hs & Hr & _) (Hle & Hlo & Hhi). unfold settings in Hs. unfold defect_range in Hr.
  injection Hs as _ Hmin Hmax _ _ _ _ _ _ _ _ _ _. injection Hr as Hdl Hdh.
  unfold spans. rewrite Hmin, Hmax, Hdl, Hdh. auto.
Qed.

Lemma reinit_spans (mg : MG) lo hi : spans mg -> spans (reinit lo hi mg).2.
Proof.
  intros Hs.
  destruct (Z_le_gt_dec (get_minlevel (matrix mg)) lo) as [H1 | H1];
    [destruct (Z_le_gt_dec hi (get_maxlevel (matrix mg))) as [H2 | H2];
       [destruct (Z_le_gt_dec lo hi) as [H3 | H3] |] |].
  - rewrite reinit_ok by assumption. cbn [snd]. unfold spans.
    cbn [minlevel maxlevel defect with_store with_levels].
    rewrite ml_limit_resize by lia. auto.
  - destruct (reinit_fails mg lo hi) as (a & b & ->); [lia | exact Hs].
  - destruct (reinit_fails mg lo hi) as (a & b & ->); [lia | exact Hs].
  - destruct (reinit_fails mg lo hi) as (a & b & ->); [lia | exact Hs].
Qed.

Lemma perform_spans fuel op (mg : MG) : spans mg -> spans (perform fuel op mg).2.
Proof.
  intros Hs. destruct op; cbn [perform].
  - now apply reinit_spans.
  - now apply reinit_spans.
  - now apply reinit_spans.
  - exact Hs.
  - exact Hs.
  - exact Hs.
  - apply (spans_kept (cycle_writes mg) mg); [| exact Hs].
    apply cycle_kept, kept_refl.
  - apply (spans_kept v_stores mg); [| exact Hs].
    apply vcycle_kept, kept_refl.
Qed.

(** From a state whose defect store spans the window, [cycle] returns. *)
Lemma cycle_returns (mg : MG) fuel :
  spans mg -> 0 <= minlevel mg -> maxlevel mg < uint_mod - 1 ->
  (Z.to_nat (maxlevel mg - minlevel mg) + 1 < fuel)%nat ->
  exists mg',
    cycle fuel mg = (Done tt, mg') /\
    traced (minlevel mg) (maxlevel mg) (cycle_stores mg) (events mg)
           (rev (cycle_trace (minlevel mg) (maxlevel mg) mg)) mg'.
Proof.
  intros (Hle & Hlo & Hhi) H0 Hu Hfuel.
  destruct (cycle_runs (minlevel mg) (maxlevel mg) mg H0 Hle Hu (fun _ => True) fuel)
    as (mg' & Hrun & Ht & _).
  - split; [reflexivity |]. split; [reflexivity |]. intros s ->. auto.
  - exact Hfuel.
  - auto.
  - intros _. apply inv_True.
  - intros _. apply inv_True.
  - exists mg'. auto.
Qed.

Lemma disciplined_calls (mg0 mg : MG) :
  disciplined mg0 mg ->
  exists new, events mg = events mg0 ++ new /\
              forall e, In e new -> call_ok mg0 e.
Proof.
  intros (_ & new & Hev & Hok). exists new. split; [exact Hev |].
  intros e Hin. rewrite Forall_forall in Hok. apply Hok. now apply list_elem_of_In.
Qed.



(** What [call_ok] says of the calls, in the words of the properties. *)
Lemma call_ok_coarse (mg0 : MG) who level :
  call_ok mg0 (Invoke who level) -> (who = TheCoarse <-> level = minlevel mg0).
Proof.
  destruct who; cbn [call_ok]; intros H; split; intros H'; try discriminate;
    first [reflexivity | exact H | destruct H as [H _]; contradiction].
Qed.

Lemma call_ok_edges (mg0 : MG) who level :
  call_ok mg0 (Invoke who level) ->
  (who = TheEdgeOut -> edge_out mg0 <> None) /\
  (who = TheEdgeIn -> edge_in mg0 <> None) /\
  (who = TheEdgeDown -> edge_down mg0 <> None) /\
  (who = TheEdgeUp -> edge_up mg0 <> None).
Proof.
  destruct who; cbn [call_ok]; intros H; repeat split; intros H'; try discriminate;
    apply H.
Qed.

End Spans.

(** ** A cycle without a defect vector *)

Section WithoutDefect.

Context {V real : Type} `{VT : VectorType V real}.

Local Abbreviation MG := (Multigrid (V:=V) (real:=real)).






End WithoutDefect.

(** ** The complete sequence of calls

    [logged lo hi S mg0 T]: the stores in [S] span the window, the edge
    slots are those of [mg0], and [T] lists the events since [mg0], in the
    order in which they happened. *)

Section Logged.

Context {V real : Type} `{VT : VectorType V real}.

Local Abbreviation MG := (Multigrid (V:=V) (real:=real)).

Definition edges (mg : MG) := (edge_out mg, edge_in mg, edge_down mg, edge_up mg).

(** The call made under [if (edge != 0)]. *)
Definition if_set_call {A} (o : option A) (e : Event) : list Event :=
  match o with
  | Some _ => [e]
  | None => []
  end.

Variables (lo hi : Z) (S : StoreId -> Prop) (mg0 : MG).

Definition logged (T : list Event) (mg : MG) : Prop :=
  ranged lo hi S mg /\ edges mg = edges mg0 /\ events mg = events mg0 ++ T.

Lemma logged_assign T mg s i v :
  logged T mg -> logged T (with_store s (ml_set (store s mg) i v) mg).
Proof.
  intros (Hr & He & Hev). split; [now apply ranged_assign |].
  destruct s; (split; [exact He | exact Hev]).
Qed.

Lemma runs_logged_at_ T s i :
  S s -> lo <= i <= hi -> runs (logged T) (at_ s i) (logged T) (fun _ => True).
Proof.
  intros Hs Hi mg HP.
  destruct (ml_get_addressable _ _ (ranged_addressable lo hi S mg s i (proj1 HP) Hs Hi))
    as [v Hv].
  exists v, mg. unfold at_. rewrite Hv. auto.
Qed.

Lemma runs_logged_assign T s i v :
  S s -> lo <= i <= hi -> runs (logged T) (assign s i v) (logged T) (fun _ => True).
Proof.
  intros Hs Hi. apply runs_assign. intros mg HP. split.
  - destruct HP as [Hr _]. now apply (ranged_addressable lo hi S).
  - now apply logged_assign.
Qed.

Lemma runs_logged_vec_op1 T op dst :
  S dst.1 -> lo <= dst.2 <= hi ->
  runs (logged T) (vec_op1 op dst) (logged T) (fun _ => True).
Proof.
  intros Hs Hi. unfold vec_op1.
  eapply runs_bind; [now apply runs_logged_at_ |]. intros d _.
  now apply runs_logged_assign.
Qed.

Lemma runs_logged_vec_op2 T op dst src :
  S dst.1 -> lo <= dst.2 <= hi -> S src.1 -> lo <= src.2 <= hi ->
  runs (logged T) (vec_op2 op dst src) (logged T) (fun _ => True).
Proof.
  intros Hs Hi Hs' Hi'. unfold vec_op2.
  eapply runs_bind; [now apply runs_logged_at_ |]. intros d _.
  eapply runs_bind; [now apply runs_logged_at_ |]. intros s _.
  now apply runs_logged_assign.
Qed.

Lemma runs_logged_note T e :
  runs (logged T) (note e) (logged (T ++ [e])) (fun _ => True).
Proof.
  apply runs_modify. intros mg (Hr & He & Hev). split; [exact Hr |].
  split; [exact He |]. simpl events. now rewrite Hev, <- app_assoc.
Qed.

Lemma runs_logged_invoke T who method level dst src :
  S dst.1 -> lo <= dst.2 <= hi -> S src.1 -> lo <= src.2 <= hi ->
  runs (logged T) (invoke who method level dst src)
       (logged (T ++ [Invoke who level])) (fun _ => True).
Proof.
  intros Hs Hi Hs' Hi'. unfold invoke.
  eapply runs_bind; [now apply runs_logged_at_ |]. intros d _.
  eapply runs_bind; [now apply runs_logged_at_ |]. intros s _.
  eapply runs_bind; [apply runs_logged_note |]. intros _ _.
  now apply runs_logged_assign.
Qed.

Lemma runs_logged_say T line :
  runs (logged T) (say line) (logged T) (fun _ => True).
Proof. apply runs_modify. intros mg HP. exact HP. Qed.

Lemma runs_logged_say_norm T text v :
  S v.1 -> lo <= v.2 <= hi ->
  runs (logged T) (say_norm text v) (logged T) (fun _ => True).
Proof.
  intros Hs Hi. unfold say_norm.
  eapply runs_bind; [now apply runs_logged_at_ |]. intros x _.
  apply runs_logged_say.
Qed.

Lemma runs_logged_if_set (edge : MG -> option MGMatrixBase) body e T :
  (forall mg, edges mg = edges mg0 -> edge mg = edge mg0) ->
  (forall m, runs (logged T) (body m) (logged (T ++ [e])) (fun _ => True)) ->
  runs (logged T) (if_set edge body)
       (logged (T ++ if_set_call (edge mg0) e)) (fun _ => True).
Proof.
  intros Hedge Hbody mg HP. unfold if_set, bind, gets.
  rewrite (Hedge mg (proj1 (proj2 HP))).
  destruct (edge mg0) as [m |]; cbn [if_set_call].
  - now apply Hbody.
  - exists tt, mg. rewrite app_nil_r. auto.
Qed.

Lemma logged_minlevel T x :
  (exists mg, logged T mg /\ x = minlevel mg) -> x = lo.
Proof. intros (mg & ((Hlo & _) & _) & ->). exact Hlo. Qed.

Lemma logged_maxlevel T x :
  (exists mg, logged T mg /\ x = maxlevel mg) -> x = hi.
Proof. intros (mg & ((_ & Hhi & _) & _) & ->). exact Hhi. Qed.

End Logged.

Ltac log_levels :=
  repeat match goal with
  | H : exists mg, logged _ _ _ _ _ mg /\ ?x = minlevel mg |- _ =>
      apply logged_minlevel in H; subst x
  | H : exists mg, logged _ _ _ _ _ mg /\ ?x = maxlevel mg |- _ =>
      apply logged_maxlevel in H; subst x
  end.

Ltac log_walk prim contra :=
  lazymatch goal with
  | |- runs _ (bind _ _) _ _ =>
      let H := fresh "H" in
      eapply runs_bind;
        [log_walk prim contra | intros ? H; cbv beta in H; log_walk prim contra]
  | |- runs _ (if ?b then _ else _) _ _ =>
      destruct b eqn:?; first [ solve [exfalso; contra] | log_walk prim contra ]
  | |- runs _ (ret _) _ _ => apply runs_ret
  | |- runs _ (gets _) _ _ => apply runs_gets_sp
  | |- runs _ (if_debug _ _) _ _ => apply runs_if_debug; log_walk prim contra
  | |- runs _ (if_set _ _) _ _ =>
      eapply runs_logged_if_set;
        [ let He := fresh "He" in
          unfold edges; intros ? He; injection He; intros; assumption
        | intros ?; log_walk prim contra ]
  | |- _ => prim
  end.

Ltac log_prim side :=
  first
    [ apply runs_logged_say
    | apply runs_logged_note
    | apply runs_logged_invoke; side
    | (apply runs_logged_say_norm || apply runs_logged_vec_op1
       || apply runs_logged_vec_op2 || apply runs_logged_at_); side ].

Section CallSequence.

Context {V real : Type} `{VT : VectorType V real}.

Local Abbreviation MG := (Multigrid (V:=V) (real:=real)).

Variables (lo hi : Z) (mg0 : MG).
Hypothesis lo_nonneg : 0 <= lo.
Hypothesis hi_uint : hi < uint_mod.

(** The calls of [level_v_step] at level [lo + d], in the order of the
    source. *)
Fixpoint v_calls (d : nat) : list Event :=
  match d with
  | O => [Invoke TheCoarse lo]
  | S d' =>
      let level := lo + Z.of_nat d in
      [Invoke ThePreSmooth level; Invoke TheMatrix level] ++
      if_set_call (edge_out mg0) (Invoke TheEdgeOut level) ++
      if_set_call (edge_down mg0) (Invoke TheEdgeDown level) ++
      [Invoke TheRestrict level] ++
      v_calls d' ++
      [Invoke TheProlongate level] ++
      if_set_call (edge_in mg0) (Invoke TheEdgeIn level) ++
      if_set_call (edge_up mg0) (Invoke TheEdgeUp level) ++
      [Invoke ThePostSmooth level]
  end.

(** The calls and descents of [level_step] at level [lo + d]. *)
Fixpoint step_calls (d : nat) (c : Cycle) : list Event :=
  match d with
  | O => [Invoke TheCoarse lo]
  | S d' =>
      let level := lo + Z.of_nat d in
      [Invoke TheRestrict level; Invoke ThePreSmooth level; Invoke TheMatrix level] ++
      if_set_call (edge_out mg0) (Invoke TheEdgeOut level) ++
      if_set_call (edge_down mg0) (Invoke TheEdgeDown level) ++
      [Invoke TheRestrict level; Descend false level c c] ++
      step_calls d' c ++
      match d' with
      | O => []
      | S _ =>
          match c with
          | w_cycle => Descend true level w_cycle w_cycle :: step_calls d' w_cycle
          | f_cycle => Descend true level f_cycle v_cycle :: step_calls d' v_cycle
          | v_cycle => []
          end
      end ++
      [Invoke TheProlongate level] ++
      if_set_call (edge_in mg0) (Invoke TheEdgeIn level) ++
      if_set_call (edge_up mg0) (Invoke TheEdgeUp level) ++
      [Invoke ThePostSmooth level]
  end.

Lemma level_v_step_logged fuel :
  forall d level T,
    level = lo + Z.of_nat d -> level <= hi -> (d < fuel)%nat ->
    runs (logged lo hi v_stores mg0 T) (level_v_step fuel level)
         (logged lo hi v_stores mg0 (T ++ v_calls d)) (fun _ => True).
Proof.
  induction fuel as [| fuel IH]; intros d level T Hlevel Hhi Hfuel; [lia |].
  simpl level_v_step.
  destruct d as [| d'].
  - assert (level = lo) as -> by lia.
    log_walk ltac:(log_prim ltac:(first [discriminate | cbn [fst snd]; lia]))
             ltac:(log_levels; lia).
  - assert (Hw : wrap (level - 1) = level - 1)
      by (apply wrap_small; unfold is_uint; lia).
    rewrite !Hw. eapply runs_post.
    + log_walk ltac:(first
        [ apply IH with (d := d'); lia
        | log_prim ltac:(first [discriminate | cbn [fst snd]; lia]) ])
        ltac:(log_levels; lia).
    + intros mg Hmg. subst level. rewrite <- !app_assoc in Hmg. exact Hmg.
Qed.

Lemma level_step_logged fuel :
  forall d level c T,
    level = lo + Z.of_nat d -> level <= hi -> (d < fuel)%nat ->
    runs (logged lo hi all_stores mg0 T) (level_step fuel level c)
         (logged lo hi all_stores mg0 (T ++ step_calls d c)) (fun _ => True).
Proof.
  induction fuel as [| fuel IH]; intros d level c T Hlevel Hhi Hfuel; [lia |].
  simpl level_step.
  destruct d as [| d'].
  - assert (level = lo) as -> by lia.
    log_walk ltac:(log_prim ltac:(first [exact Logic.I | cbn [fst snd]; lia]))
             ltac:(log_levels; lia).
  - assert (Hw : wrap (level - 1) = level - 1)
      by (apply wrap_small; unfold is_uint; lia).
    assert (Hw' : wrap (lo + 1) = lo + 1)
      by (apply wrap_small; unfold is_uint; lia).
    rewrite !Hw.
    destruct d' as [| d''].
    + eapply runs_post.
      * log_walk ltac:(first
          [ apply IH with (d := 0%nat); lia
          | log_prim ltac:(first [exact Logic.I | cbn [fst snd]; lia]) ])
          ltac:(log_levels; rewrite ?Hw' in *; lia).
      * intros mg Hmg. subst level. rewrite <- !app_assoc in Hmg. exact Hmg.
    + destruct c; (eapply runs_post;
      [ log_walk ltac:(first
          [ apply IH with (d := S d''); lia
          | log_prim ltac:(first [exact Logic.I | cbn [fst snd]; lia]) ])
          ltac:(log_levels; rewrite ?Hw' in *; simpl Cycle_eqb in *;
                first [lia | discriminate])
      | intros mg Hmg; subst level; rewrite <- !app_assoc in Hmg; exact Hmg ]).
Qed.

End CallSequence.

Section CycleSequence.

Context {V real : Type} `{VT : VectorType V real}.

Local Abbreviation MG := (Multigrid (V:=V) (real:=real)).

Variables (lo hi : Z) (mg0 : MG).
Hypothesis lo_nonneg : 0 <= lo.
Hypothesis lo_hi : lo <= hi.
Hypothesis hi_uint : hi < uint_mod - 1.

(** [cycle] sets the stores up and hands over to the recursion, which
    then establishes [Post]. *)
Lemma cycle_then (Post : MG -> Prop) fuel :
  ranged lo hi (fun s => s = Defect) mg0 ->
  (Z.to_nat (hi - lo) + 1 < fuel)%nat ->
  (cycle_type mg0 = v_cycle ->
   runs (primed lo hi mg0 (cycle_stores mg0) (fun _ => hi + 1))
        (level_v_step fuel hi) Post (fun _ => True)) ->
  (cycle_type mg0 <> v_cycle ->
   runs (primed lo hi mg0 (cycle_stores mg0) (fun _ => hi + 1))
        (level_step fuel hi (cycle_type mg0)) Post (fun _ => True)) ->
  exists mg', cycle fuel mg0 = (Done tt, mg') /\ Post mg'.
Proof.
  intros Hr0 Hfuel Hv Hs.
  assert (Hrun : runs (primed lo hi mg0 (fun s => s = Defect) (fun _ => lo))
                      (cycle fuel) Post (fun _ => True)).
  { rewrite cycle_loop.
    eapply runs_bind; [apply runs_primed_resize; [exact lo_hi | discriminate] |].
    intros _ _.
    eapply runs_bind; [apply runs_primed_resize; [exact lo_hi | discriminate] |].
    intros _ _.
    eapply runs_bind; [apply runs_gets_sp |].
    intros ct (mg & Hmg & ->). rewrite (primed_cycle_type _ _ _ _ _ _ Hmg). clear mg Hmg.
    eapply runs_bind with (P' := primed lo hi mg0 (cycle_stores mg0) (fun _ => lo))
                          (Q := fun _ => True).
    { destruct (cycle_type mg0) eqn:Hct; simpl.
      - eapply runs_post; [apply runs_ret |].
        intros mg. apply primed_weaken.
        + intros s Hcs. specialize (Hcs Hct). destruct s; auto; congruence.
        + intros s Hd Hcs. unfold bump. destruct s; simpl; lia.
      - eapply runs_post; [apply runs_primed_resize; [exact lo_hi | discriminate] |].
        intros mg. apply primed_weaken.
        + intros s _. destruct s; auto.
        + intros s Hd Hcs. unfold bump. destruct s; simpl; lia.
      - eapply runs_post; [apply runs_primed_resize; [exact lo_hi | discriminate] |].
        intros mg. apply primed_weaken.
        + intros s _. destruct s; auto.
        + intros s Hd Hcs. unfold bump. destruct s; simpl; lia. }
    intros _ _. eapply runs_bind; [apply runs_gets_sp |].
    intros minl (mg & (_ & (Hlo & _) & _) & ->). rewrite Hlo. clear mg Hlo.
    eapply runs_bind;
      [apply (runs_for_levels lo hi mg0 lo_nonneg hi_uint fuel lo); lia |].
    intros _ _.
    eapply runs_bind; [apply runs_gets_sp |].
    intros ct (mg & Hmg & ->). rewrite (primed_cycle_type _ _ _ _ _ _ Hmg). clear mg Hmg.
    eapply runs_bind; [apply runs_gets_sp |].
    intros maxl (mg & (_ & (_ & Hhi & _) & _) & ->). rewrite Hhi. clear mg Hhi.
    destruct (cycle_type mg0) eqn:Hct; simpl Cycle_eqb; cbv iota.
    - now apply Hv.
    - apply Hs. discriminate.
    - apply Hs. discriminate. }
  destruct (Hrun mg0) as ([] & mg' & Hc & Hpost & _).
  { split; [reflexivity |]. split; [assumption |].
    intros s i v Hd ->. contradiction. }
  exists mg'. split; assumption.
Qed.

(** The calls and descents of one [cycle], in the order in which they
    happen. *)
Definition cycle_sequence : list Event :=
  match cycle_type mg0 with
  | v_cycle => v_calls lo mg0 (Z.to_nat (hi - lo))
  | c => step_calls lo mg0 (Z.to_nat (hi - lo)) c
  end.

Lemma primed_logged S K mg :
  primed lo hi mg0 S K mg -> logged lo hi S mg0 [] mg.
Proof.
  intros (Hf & Hr & _). split; [assumption |]. unfold frame in Hf.
  injection Hf as _ _ _ _ _ _ _ _ _ Heo Hei Hed Heu _ _ Hev.
  split; [unfold edges; now rewrite Heo, Hei, Hed, Heu |].
  now rewrite app_nil_r.
Qed.

Lemma logged_weaken (S S' : StoreId -> Prop) T (mg : MG) :
  (forall s, S' s -> S s) -> logged lo hi S mg0 T mg -> logged lo hi S' mg0 T mg.
Proof.
  intros HS ((Hlo & Hhi & Hr) & Ht). split; [| assumption].
  split; [| split]; auto.
Qed.

Lemma cycle_logged fuel :
  ranged lo hi (fun s => s = Defect) mg0 ->
  (Z.to_nat (hi - lo) + 1 < fuel)%nat ->
  exists mg', cycle fuel mg0 = (Done tt, mg') /\
              events mg' = events mg0 ++ cycle_sequence.
Proof.
  intros Hr0 Hfuel. apply cycle_then; [assumption | assumption | |].
  - intros Hct. unfold cycle_sequence. rewrite Hct.
    eapply runs_pre with (P0 := logged lo hi v_stores mg0 []).
    { intros mg Hmg. apply logged_weaken with (S := cycle_stores mg0).
      - intros s Hs' _. exact Hs'.
      - now apply primed_logged with (K := fun _ => hi + 1). }
    eapply runs_post.
    { apply level_v_step_logged with (d := Z.to_nat (hi - lo)); lia. }
    intros mg (_ & _ & Hev). exact Hev.
  - intros Hct. unfold cycle_sequence.
    eapply runs_pre with (P0 := logged lo hi all_stores mg0 []).
    { intros mg Hmg. apply logged_weaken with (S := cycle_stores mg0).
      - intros s _ Hv. contradiction.
      - now apply primed_logged with (K := fun _ => hi + 1). }
    eapply runs_post.
    { apply level_step_logged with (d := Z.to_nat (hi - lo)); lia. }
    intros mg (_ & _ & Hev). rewrite Hev. cbn [app].
    destruct (cycle_type mg0); [contradiction | reflexivity ..].
Qed.

End CycleSequence.

(** ** The recursion on two levels *)

Section TwoLevels.

Context {V real : Type} `{VT : VectorType V real}.

Local Abbreviation MG := (Multigrid (V:=V) (real:=real)).

(** What a run computes can be read off the run with the debug level at
    zero and an empty log. *)
Lemma erased_run (m : M MG unit) (mg : MG) :
  (forall D, sim (shaped D) m True) ->
  (m (erase mg)).1 = Done tt ->
  (m mg).1 = Done tt /\ forall s, store s (m mg).2 = store s (m (erase mg)).2.
Proof.
  intros Hsim Hdone.
  destruct (Hsim (erase mg) (erase mg) mg eq_refl (shaped_refl _)) as (Ha & _ & Ho).
  rewrite Hdone in Ho. split.
  - destruct (m mg).1 as [[] | e |]; [reflexivity | contradiction ..].
  - intros s. symmetry. now apply agree_store.
Qed.

Definition two_slots (lo : Z) (a b : V) : MGLevelObject :=
  {| ml_minlevel := lo; objects := [a; b] |}.

Lemma level_v_step_two_levels (mg : MG) fuel (d0 d1 s0 s1 x0 x1 : V) :
  minlevel mg = 0 ->
  defect mg = two_slots 0 d0 d1 -> solution mg = two_slots 0 s0 s1 ->
  t mg = two_slots 0 x0 x1 ->
  edge_out mg = None -> edge_in mg = None ->
  edge_down mg = None -> edge_up mg = None ->
  let y := smooth (pre_smooth mg) 1 s1 d1 in
  let res := vsadd (-1) 1 (vmult (matrix mg) 1 x1 y) d1 in
  let rhs := restrict_and_add (transfer mg) 1 d0 res in
  let c := coarse_solve (coarse mg) 0 (vassign 0 s0) rhs in
  let p := prolongate (transfer mg) 1 (vassign 0 res) c in
  (level_v_step (S (S fuel)) 1 (erase mg)).1 = Done tt /\
  solution (level_v_step (S (S fuel)) 1 (erase mg)).2 =
    two_slots 0 c (smooth (post_smooth mg) 1 (vadd y p) d1) /\
  defect (level_v_step (S (S fuel)) 1 (erase mg)).2 = two_slots 0 rhs d1.
Proof.
  destruct mg as [ct minl maxl def sol sc def2 A C tr pre post eo ei ed eu dbg log ev];
    cbn [minlevel defect solution t edge_out edge_in edge_down edge_up
                    pre_smooth post_smooth matrix transfer coarse].
  intros -> -> -> -> -> -> -> ->. cbv zeta.
  repeat split; vm_compute; reflexivity.
Qed.

Lemma level_step_two_levels (mg : MG) fuel (cy : Cycle) (d0 d1 s0 s1 x0 x1 e0 e1 : V) :
  minlevel mg = 0 ->
  defect mg = two_slots 0 d0 d1 -> solution mg = two_slots 0 s0 s1 ->
  t mg = two_slots 0 x0 x1 -> defect2 mg = two_slots 0 e0 e1 ->
  edge_out mg = None -> edge_in mg = None ->
  edge_down mg = None -> edge_up mg = None ->
  let b1 := vadd (vequ (-1) x1 e1) d1 in
  let y := smooth (pre_smooth mg) 1 s1 b1 in
  let r := vmult (matrix mg) 1 b1 y in
  let e0' := restrict_and_add (transfer mg) 1
               (restrict_and_add (transfer mg) 1 (vassign 0 e0) e1) r in
  let b0 := vadd (vequ (-1) x0 e0') d0 in
  let c := coarse_solve (coarse mg) 0 (vassign 0 s0) b0 in
  let p := prolongate (transfer mg) 1 (vassign 0 r) c in
  let b1' := vadd (vsadd (-1) (-1) p e1) d1 in
  (level_step (S (S fuel)) 1 cy (erase mg)).1 = Done tt /\
  solution (level_step (S (S fuel)) 1 cy (erase mg)).2 =
    two_slots 0 c (smooth (post_smooth mg) 1 (vadd y p) b1') /\
  defect (level_step (S (S fuel)) 1 cy (erase mg)).2 = two_slots 0 d0 d1 /\
  defect2 (level_step (S (S fuel)) 1 cy (erase mg)).2 = two_slots 0 e0' e1.
Proof.
  destruct mg as [ct minl maxl def sol sc def2 A C tr pre post eo ei ed eu dbg log ev];
    cbn [minlevel defect solution t defect2 edge_out edge_in edge_down edge_up
         pre_smooth post_smooth matrix transfer coarse].
  intros -> -> -> -> -> -> -> -> ->. cbv zeta.
  destruct cy; repeat split; vm_compute; reflexivity.
Qed.


End TwoLevels.

(** * A scalar instance

    Vectors with one entry, carried as [Z]; operators that multiply by a
    number. *)

Module Scalar.

#[export] Instance scalar_vector : VectorType Z Z := {|
  vnew := 0;
  vreinit := fun _ _ => 0;
  vassign := fun s _ => s;
  vadd := Z.add;
  vsub := Z.sub;
  vsadd := fun s a x y => s * x + a * y;
  vequ := fun a _ y => a * y;
  l2_norm := Z.abs
|}.

(** The operator that multiplies by [c l] on level [l], for levels
    [lo..hi]. *)
Definition multiply (lo hi : Z) (c : Z -> Z) : MGMatrixBase (V:=Z) :=
  {| get_minlevel := lo;
     get_maxlevel := hi;
     vmult := fun l _ src => c l * src;
     vmult_add := fun l dst src => dst + c l * src;
     Tvmult := fun l _ src => c l * src;
     Tvmult_add := fun l dst src => dst + c l * src |}.

(** [A0 = 1], [A1 = 2]. *)
Definition level_operator : MGMatrixBase (V:=Z) :=
  multiply 0 1 (fun l => if l =? 0 then 1 else 2).

(** The coarse operator is [1], so is its inverse. *)
Definition exact_coarse : MGCoarseGridBase (V:=Z) :=
  {| coarse_solve := fun _ _ rhs => rhs |}.

Definition identity_transfer : MGTransferBase (V:=Z) :=
  {| prolongate := fun _ _ src => src;
     restrict_and_add := fun _ dst src => dst + src |}.

Definition no_smoother : MGSmootherBase (V:=Z) :=
  {| smooth := fun _ sol _ => sol |}.

(** An engine over levels [0..hi] with the given defect vectors, no edge
    operators, and stores [solution], [t], [defect2] not yet allocated. *)
Definition engine (ct : Cycle) (A : MGMatrixBase (V:=Z)) (defects : list Z)
    : Multigrid (V:=Z) (real:=Z) :=
  {| cycle_type := ct;
     minlevel := 0;
     maxlevel := Z.of_nat (length defects) - 1;
     defect := {| ml_minlevel := 0; objects := defects |};
     solution := {| ml_minlevel := 0; objects := [] |};
     t := {| ml_minlevel := 0; objects := [] |};
     defect2 := {| ml_minlevel := 0; objects := [] |};
     matrix := A;
     coarse := exact_coarse;
     transfer := identity_transfer;
     pre_smooth := no_smoother;
     post_smooth := no_smoother;
     edge_out := None; edge_in := None; edge_down := None; edge_up := None;
     debug := 0;
     deallog := [];
     events := [] |}.

(** The state in which [cycle] starts the recursion: every store
    allocated over the levels and zero, except the defect store. *)
Definition started (ct : Cycle) (A : MGMatrixBase (V:=Z)) (defects : list Z)
    : Multigrid (V:=Z) (real:=Z) :=
  let zeros := {| ml_minlevel := 0; objects := map (fun _ => 0) defects |} in
  with_store Defect2 zeros
    (with_store Scratch zeros (with_store Solution zeros (engine ct A defects))).

(** [minlevel=0], [maxlevel=1], [defect[0]=0], [defect[1]=4]. *)
Definition two_level (ct : Cycle) : Multigrid (V:=Z) (real:=Z) := engine ct level_operator [0; 4].



(** Three and four levels, every level operator the identity. *)
Definition three_levels (ct : Cycle) : Multigrid (V:=Z) (real:=Z) :=
  engine ct (multiply 0 2 (fun _ => 1)) [1; 2; 3].

Definition four_levels : Multigrid (V:=Z) (real:=Z) :=
  started f_cycle (multiply 0 3 (fun _ => 1)) [1; 2; 3; 4].

Definition scalar_zero (v : Z) : Prop := v = 0.

(** Two levels, defect[0]=3, defect[1]=4, started; the transpose of
    [edge_in] multiplies by [k], the transpose of [edge_up] by 7. *)
Definition both_edges (k : Z) : Multigrid (V:=Z) (real:=Z) :=
  with_edge_flux_matrices None (Some (multiply 0 1 (fun _ => 7)))
    (with_edge_matrices None (Some (multiply 0 1 (fun _ => k)))
       (started w_cycle level_operator [3; 4])).

End Scalar.

Import Scalar.

(** * The claims *)

(** C1: in the two-level scalar scenario (A0=1, A1=2, identity
    restriction and prolongation, smoothers that do nothing, no edge
    operators, defect[0]=0, defect[1]=4), [cycle] with cycle type V returns
    normally with solution[0] = 4 and solution[1] = 4, for every amount of
    fuel from 3 on. *)
Theorem C1_scalar_v_cycle (fuel : nat) :
  (3 <= fuel)%nat ->
  exists mg', cycle fuel (two_level v_cycle) = (Done tt, mg') /\
              ml_get (solution mg') 0 = Some 4 /\
              ml_get (solution mg') 1 = Some 4.
Proof.
  intros Hfuel. rewrite (cycle_fuel_enough 3 (two_level v_cycle)); [| | exact Hfuel].
  - eexists. split; [vm_compute; reflexivity |]. split; reflexivity.
  - vm_compute. discriminate.
Qed.

Lemma C1_scalar_v_cycle_witness :
  exists mg', cycle 3 (two_level v_cycle) = (Done tt, mg') /\
              ml_get (solution mg') 0 = Some 4 /\
              ml_get (solution mg') 1 = Some 4.
Proof. apply (C1_scalar_v_cycle 3). lia. Defined.

(** C2: the two routines do not agree.  In the two-level scalar scenario
    (A0=1, A1=2, identity restriction and prolongation, smoothers that do
    nothing, no edge operator set, defect[0]=0, defect[1]=4), from the
    state in which [cycle] starts the recursion, [level_v_step(1)] returns
    with solution [4; 4] and [level_step(1, V)] returns with solution
    [0; 0]: the general routine restricts only [A*solution[1]] and never
    carries [defect[1]] to level 0.  So it is through the entry point:
    [cycle] gives [4; 4] with cycle type V and [0; 0] with W and with F,
    on two levels, where no second descent is made; with defect [4; 4] it
    gives [8; 8] with V and [4; 4] with W. *)
Theorem C2_general_step_differs_from_v_step :
  let mg := started v_cycle level_operator [0; 4] in
  let v := level_v_step 2 1 mg in
  let g := level_step 2 1 v_cycle mg in
  (edge_out mg = None /\ edge_in mg = None /\
   edge_down mg = None /\ edge_up mg = None) /\
  (v.1 = Done tt /\ solution v.2 = {| ml_minlevel := 0; objects := [4; 4] |}) /\
  (g.1 = Done tt /\ solution g.2 = {| ml_minlevel := 0; objects := [0; 0] |}) /\
  (solution (cycle 3 (two_level v_cycle)).2 = {| ml_minlevel := 0; objects := [4; 4] |} /\
   solution (cycle 3 (two_level w_cycle)).2 = {| ml_minlevel := 0; objects := [0; 0] |} /\
   solution (cycle 3 (two_level f_cycle)).2 = {| ml_minlevel := 0; objects := [0; 0] |}) /\
  (solution (cycle 3 (engine v_cycle level_operator [4; 4])).2 =
     {| ml_minlevel := 0; objects := [8; 8] |} /\
   solution (cycle 3 (engine w_cycle level_operator [4; 4])).2 =
     {| ml_minlevel := 0; objects := [4; 4] |}).
Proof.
  cbv zeta. repeat split; vm_compute; reflexivity.
Qed.

(** C3: on a hierarchy of three levels ([minlevel=0], [maxlevel=2], a
    defect store over these levels), one [cycle] with cycle type W calls
    the coarse solver exactly 2 times, and with cycle type V exactly once;
    in both cases [cycle] returns normally. *)
Theorem C3_coarse_solver_calls {V real : Type} `{VT : VectorType V real}
    (mg : Multigrid (V:=V) (real:=real)) (fuel : nat) :
  minlevel mg = 0 -> maxlevel mg = 2 ->
  ml_minlevel (defect mg) = 0 -> ml_limit (defect mg) = 3 ->
  (3 < fuel)%nat ->
  exists mg' new,
    cycle fuel mg = (Done tt, mg') /\ events mg' = events mg ++ new /\
    (cycle_type mg = w_cycle -> coarse_calls new = 2%nat) /\
    (cycle_type mg = v_cycle -> coarse_calls new = 1%nat).
Proof.
  intros Hlo Hhi Hdlo Hdhi Hfuel.
  destruct (cycle_runs 0 2 mg ltac:(lia) ltac:(lia) ltac:(rewrite uint_mod_eq; lia)
              (fun _ => True) fuel) as (mg' & Hrun & [_ (new & Hev & Hnew)] & _).
  - split; [assumption |]. split; [assumption |]. intros s ->. auto.
  - simpl. lia.
  - auto.
  - intros _. apply inv_True.
  - intros _. apply inv_True.
  - exists mg', new. split; [assumption |]. split; [assumption |].
    apply (f_equal (@rev Event)) in Hnew. rewrite !rev_involutive in Hnew.
    rewrite <- (coarse_calls_essential new), Hnew. unfold cycle_trace.
    split; intros ->; reflexivity.
Qed.

Lemma C3_coarse_solver_calls_witness :
  (exists mg' new,
     cycle 4 (three_levels w_cycle) = (Done tt, mg') /\
     events mg' = events (three_levels w_cycle) ++ new /\
     (cycle_type (three_levels w_cycle) = w_cycle -> coarse_calls new = 2%nat) /\
     (cycle_type (three_levels w_cycle) = v_cycle -> coarse_calls new = 1%nat)) /\
  (exists mg' new,
     cycle 4 (three_levels v_cycle) = (Done tt, mg') /\
     events mg' = events (three_levels v_cycle) ++ new /\
     (cycle_type (three_levels v_cycle) = w_cycle -> coarse_calls new = 2%nat) /\
     (cycle_type (three_levels v_cycle) = v_cycle -> coarse_calls new = 1%nat)).
Proof.
  split.
  - apply (C3_coarse_solver_calls (three_levels w_cycle) 4); first [reflexivity | lia].
  - apply (C3_coarse_solver_calls (three_levels v_cycle) 4); first [reflexivity | lia].
Defined.

(** C4: while [level_step(3, c)] runs with [minlevel=0], whatever the
    cycle type [c] it is started with, every second descent happens at a
    level above 1; made by an F-cycle call it passes cycle type V, made by
    a W-cycle call it passes W, and no V-cycle call makes one.  On a
    hierarchy of four levels the call returns normally and its descents
    are these.  Started with F: F at levels 3, 2, 1; then the second
    descent of level 2 with type V (one descent at level 1); then the
    second descent of level 3 with type V (descents at levels 2 and 1).
    Started with W: W at levels 3, 2, 1; the second descent of level 2
    with type W (one descent at level 1); the second descent of level 3
    with type W, under which level 2 descends twice again.  Started with
    V: one descent at each of the levels 3, 2, 1. *)
Theorem C4_second_descent {V real : Type} `{VT : VectorType V real}
    (mg : Multigrid (V:=V) (real:=real)) (fuel : nat) (c : Cycle) :
  minlevel mg = 0 ->
  let r := level_step fuel 3 c mg in
  exists new,
    events r.2 = events mg ++ new /\
    (forall level from to, In (Descend true level from to) new ->
       level > 1 /\ (from = f_cycle -> to = v_cycle) /\
       (from = w_cycle -> to = w_cycle) /\ from <> v_cycle) /\
    (ranged 0 3 all_stores mg -> (3 < fuel)%nat ->
       r.1 = Done tt /\
       List.filter is_descent new =
         match c with
         | f_cycle =>
             [Descend false 3 f_cycle f_cycle; Descend false 2 f_cycle f_cycle;
              Descend false 1 f_cycle f_cycle;
              Descend true 2 f_cycle v_cycle; Descend false 1 v_cycle v_cycle;
              Descend true 3 f_cycle v_cycle; Descend false 2 v_cycle v_cycle;
              Descend false 1 v_cycle v_cycle]
         | w_cycle =>
             [Descend false 3 w_cycle w_cycle; Descend false 2 w_cycle w_cycle;
              Descend false 1 w_cycle w_cycle;
              Descend true 2 w_cycle w_cycle; Descend false 1 w_cycle w_cycle;
              Descend true 3 w_cycle w_cycle; Descend false 2 w_cycle w_cycle;
              Descend false 1 w_cycle w_cycle;
              Descend true 2 w_cycle w_cycle; Descend false 1 w_cycle w_cycle]
         | v_cycle =>
             [Descend false 3 v_cycle v_cycle; Descend false 2 v_cycle v_cycle;
              Descend false 1 v_cycle v_cycle]
         end).
Proof.
  intros Hlo r.
  destruct (level_step_descents 0 (events mg) fuel 3 c mg) as [(_ & new & Hev & Hok) _].
  { split; [assumption |]. exists []. rewrite app_nil_r. split; [reflexivity | constructor]. }
  fold r in Hev. exists new. split; [assumption |]. split.
  - intros level from to Hin. rewrite Forall_forall in Hok.
    specialize (Hok _ (proj2 (list_elem_of_In _ _) Hin)). cbn [descent_ok] in Hok.
    change (wrap (0 + 1)) with 1 in Hok.
    destruct Hok as [Hl [[-> ->] | [-> ->]]]; repeat split; congruence.
  - intros Hr Hfuel.
    destruct (level_step_runs 0 3 (events mg) ltac:(lia) ltac:(rewrite uint_mod_eq; lia)
                fuel 3%nat 3 c [] ltac:(reflexivity) ltac:(lia) ltac:(lia) mg)
      as ([] & mg' & Hrun & [_ (new' & Hev' & Hnew')] & _).
    { split; [assumption |]. exists []. rewrite app_nil_r. split; reflexivity. }
    unfold r in *. rewrite Hrun in *. cbn [fst snd] in *.
    split; [reflexivity |].
    rewrite Hev' in Hev. apply app_inv_head in Hev. subst new'.
    rewrite app_nil_r in Hnew'.
    apply (f_equal (@rev Event)) in Hnew'. rewrite !rev_involutive in Hnew'.
    rewrite <- is_descent_essential, Hnew'. destruct c; reflexivity.
Qed.

Lemma four_levels_ranged : ranged 0 3 all_stores four_levels.
Proof.
  split; [reflexivity |]. split; [reflexivity |].
  intros s _. destruct s; split; reflexivity.
Defined.

Lemma C4_second_descent_witness :
  minlevel four_levels = 0 /\
  (exists new,
     events (level_step 4 3 f_cycle four_levels).2 = events four_levels ++ new /\
     (level_step 4 3 f_cycle four_levels).1 = Done tt /\
     List.filter is_descent new =
       [Descend false 3 f_cycle f_cycle; Descend false 2 f_cycle f_cycle;
        Descend false 1 f_cycle f_cycle;
        Descend true 2 f_cycle v_cycle; Descend false 1 v_cycle v_cycle;
        Descend true 3 f_cycle v_cycle; Descend false 2 v_cycle v_cycle;
        Descend false 1 v_cycle v_cycle]) /\
  (exists new,
     events (level_step 4 3 w_cycle four_levels).2 = events four_levels ++ new /\
     (level_step 4 3 w_cycle four_levels).1 = Done tt /\
     List.filter is_descent new =
       [Descend false 3 w_cycle w_cycle; Descend false 2 w_cycle w_cycle;
        Descend false 1 w_cycle w_cycle;
        Descend true 2 w_cycle w_cycle; Descend false 1 w_cycle w_cycle;
        Descend true 3 w_cycle w_cycle; Descend false 2 w_cycle w_cycle;
        Descend false 1 w_cycle w_cycle;
        Descend true 2 w_cycle w_cycle; Descend false 1 w_cycle w_cycle]).
Proof.
  split; [reflexivity |]. split.
  - destruct (C4_second_descent four_levels 4 f_cycle eq_refl) as (new & Hev & _ & Hrun).
    destruct (Hrun four_levels_ranged ltac:(lia)) as [Hdone Hlist].
    exists new. split; [exact Hev |]. split; [exact Hdone | exact Hlist].
  - destruct (C4_second_descent four_levels 4 w_cycle eq_refl) as (new & Hev & _ & Hrun).
    destruct (Hrun four_levels_ranged ltac:(lia)) as [Hdone Hlist].
    exists new. split; [exact Hev |]. split; [exact Hdone | exact Hlist].
Defined.

(** C5: let the defect store span the level range [lo..hi] and hold zero
    vectors only, let [reinit] give a zero vector, and let the vector
    operations and the collaborators (level operator, edge operators,
    transfer, smoothers, coarse solver) give zero on zero.  Then [cycle],
    of any cycle type, returns normally and every [solution[level]] is
    zero. *)
Theorem C5_zero_defect {V real : Type} `{VT : VectorType V real}
    (is_zero : V -> Prop) (mg : Multigrid (V:=V) (real:=real)) (fuel : nat) (lo hi : Z) :
  zero_vectors is_zero ->
  (forall x d, is_zero (vreinit x d)) ->
  zero_collaborators is_zero mg ->
  minlevel mg = lo -> maxlevel mg = hi ->
  0 <= lo <= hi -> hi < uint_mod - 1 ->
  ml_minlevel (defect mg) = lo -> ml_limit (defect mg) = hi + 1 ->
  (forall i v, ml_get (defect mg) i = Some v -> is_zero v) ->
  (Z.to_nat (hi - lo) + 1 < fuel)%nat ->
  exists mg',
    cycle fuel mg = (Done tt, mg') /\
    forall i, lo <= i <= hi ->
      exists v, ml_get (solution mg') i = Some v /\ is_zero v.
Proof.
  intros Hvec Hreinit Hcol Hlo Hhi Hrange Huint Hdlo Hdhi Hdz Hfuel.
  destruct (cycle_runs lo hi mg ltac:(lia) ltac:(lia) Huint
              (zero_state is_zero (cycle_stores mg)) fuel)
    as (mg' & Hrun & [Hr _] & Hz).
  - split; [assumption |]. split; [assumption |]. intros s ->. auto.
  - assumption.
  - intros mg1 (Hf & Hr1 & Hp). unfold frame in Hf.
    injection Hf as Hct Hml Hxl Hdef Hmat Hcoa Htra Hpre Hpos Heo Hei Hed Heu _ _ _.
    split.
    + unfold zero_collaborators.
      rewrite Hmat, Hcoa, Htra, Hpre, Hpos, Heo, Hei, Hed, Heu. exact Hcol.
    + intros s i v Hcs Hg. destruct (StoreId_eq_dec s Defect) as [-> | Hne].
      * cbn [store] in Hg. rewrite Hdef in Hg. eauto.
      * destruct (Hp s i v Hne Hcs) as (x & d & ->); [| assumption | apply Hreinit].
        apply ml_get_Some, ml_addressable_iff in Hg.
        destruct Hr1 as (_ & _ & HS). destruct (HS s Hcs). lia.
  - intros Hct. apply inv_equiv with (I := zero_state is_zero (fun s => s <> Defect2)).
    + intros m. unfold zero_state, cycle_stores. split; intros [Hc Hs]; split; auto.
      * intros s i v Hcs. apply Hs. auto.
      * intros s i v Hcs. apply Hs. auto.
    + now apply level_v_step_zero.
  - intros Hct. apply inv_equiv with (I := zero_state is_zero (fun _ => True)).
    + intros m. unfold zero_state, cycle_stores. split; intros [Hc Hs]; split; auto.
      * intros s i v Hcs. apply Hs. auto.
      * intros s i v _. apply Hs. intros Hv. contradiction.
    + now apply level_step_zero.
  - exists mg'. split; [assumption |]. intros i Hi.
    assert (Hcs : cycle_stores mg Solution) by (intros _; discriminate).
    pose proof (ranged_addressable lo hi _ mg' Solution i Hr Hcs Hi) as Ha.
    destruct (ml_get_addressable _ _ Ha) as [v Hv]. exists v. split; [assumption |].
    exact (zero_state_slot is_zero _ mg' Solution i v Hz Hv Hcs).
Qed.

Lemma C5_zero_defect_witness :
  exists mg',
    cycle 3 (engine w_cycle level_operator [0; 0]) = (Done tt, mg') /\
    forall i, 0 <= i <= 1 ->
      exists v, ml_get (solution mg') i = Some v /\ scalar_zero v.
Proof.
  apply (C5_zero_defect scalar_zero (engine w_cycle level_operator [0; 0]) 3 0 1).
  - unfold zero_vectors, scalar_zero. simpl. repeat split; intros; subst; lia.
  - intros x d. reflexivity.
  - unfold zero_collaborators, zero_matrix, zero_edge, zero_preserving, scalar_zero.
    simpl. repeat split; intros; subst; first [lia | discriminate].
  - reflexivity.
  - reflexivity.
  - lia.
  - rewrite uint_mod_eq. lia.
  - reflexivity.
  - reflexivity.
  - intros i v Hg. unfold ml_get in Hg.
    destruct (ml_addressable _ i); [| discriminate].
    apply list_elem_of_lookup_2, list_elem_of_In in Hg. simpl in Hg.
    unfold scalar_zero. intuition congruence.
  - simpl. lia.
Defined.




(** C7: [reinit(min, max)] with [min] at least the coarsest level of the
    operator collection, [max] at most its finest level and [min <= max]
    returns normally, with [minlevel = min], [maxlevel = max] (so
    [minlevel <= maxlevel]) and a defect store addressable exactly on
    [minlevel..maxlevel]; with any of the three bounds violated it raises
    the range exception and leaves the whole state as it was. *)
Theorem C7_reinit {V real : Type} `{VT : VectorType V real}
    (mg : Multigrid (V:=V) (real:=real)) (min_level max_level : Z) :
  let supported :=
    get_minlevel (matrix mg) <= min_level /\
    max_level <= get_maxlevel (matrix mg) /\
    min_level <= max_level in
  (supported ->
   exists mg',
     reinit min_level max_level mg = (Done tt, mg') /\
     minlevel mg' = min_level /\ maxlevel mg' = max_level /\
     minlevel mg' <= maxlevel mg' /\
     forall i, ml_addressable (defect mg') i = true <-> minlevel mg' <= i <= maxlevel mg') /\
  (~ supported ->
   exists a b, reinit min_level max_level mg = (Raised (ExcLowerRangeType a b), mg)).
Proof.
  intros supported. unfold supported. split.
  - intros (H1 & H2 & H3).
    unfold reinit, Assert, resize, bind, gets, modify, ret, raise.
    replace (min_level >=? get_minlevel (matrix mg)) with true by lia.
    replace (max_level <=? get_maxlevel (matrix mg)) with true by lia.
    replace (min_level <=? max_level) with true by lia.
    eexists. split; [reflexivity |]. cbn [minlevel maxlevel defect with_store with_levels].
    split; [reflexivity |]. split; [reflexivity |]. split; [assumption |].
    intros i. rewrite ml_addressable_iff, ml_limit_resize by lia.
    cbn [ml_minlevel ml_resize]. lia.
  - apply reinit_fails.
Qed.

Lemma C7_reinit_witness :
  (exists mg',
     reinit 0 1 (two_level v_cycle) = (Done tt, mg') /\
     minlevel mg' = 0 /\ maxlevel mg' = 1 /\ minlevel mg' <= maxlevel mg' /\
     forall i, ml_addressable (defect mg') i = true <-> minlevel mg' <= i <= maxlevel mg') /\
  (exists a b,
     reinit 0 5 (two_level v_cycle) = (Raised (ExcLowerRangeType a b), two_level v_cycle)).
Proof.
  split.
  - apply (proj1 (C7_reinit (two_level v_cycle) 0 1)). simpl. lia.
  - apply (proj2 (C7_reinit (two_level v_cycle) 0 5)). simpl. lia.
Defined.

(** C8: the two-level scalar engine with defect[0]=3, defect[1]=4, the
    transpose of [edge_in] multiplying by [k] and the transpose of
    [edge_up] multiplying by 7, in the state in which [cycle] starts the
    recursion.  [level_step] at level 1 ends with solution [3; 3] and
    hands the post-smoother the residual [t[1] = -(7*3) - 0 + 4 = -17],
    whatever [k] is: what [edge_in] wrote into [t[1]] is overwritten by
    [edge_up].  With both contributions the residual would be
    [-(k*3 + 7*3) - 0 + 4], which is [-32] for [k = 5].  The defect store
    is untouched. *)
Theorem C8_edge_in_overwritten (k : Z) :
  let r := level_step 2 1 w_cycle (both_edges k) in
  r.1 = Done tt /\
  edge_in r.2 = Some (multiply 0 1 (fun _ => k)) /\
  edge_up r.2 = Some (multiply 0 1 (fun _ => 7)) /\
  solution r.2 = {| ml_minlevel := 0; objects := [3; 3] |} /\
  t r.2 = {| ml_minlevel := 0; objects := [3; -17] |} /\
  defect r.2 = defect (both_edges k) /\
  ml_get (t r.2) 1 <> Some (- (5 * 3 + 7 * 3) - 0 + 4).
Proof.
  cbv zeta. split; [| split; [| split; [| split; [| split; [| split]]]]];
    vm_compute; first [reflexivity | discriminate].
Qed.

(** C9: from one state, [set_debug(d1)] followed by a public operation
    and [set_debug(d2)] followed by the same operation end with the same
    solution, defect, [t] and [defect2] stores and the same
    instrumentation events, and with matching outcomes (both return, both
    raise, or both run out of fuel).  The operation is any of [reinit],
    [set_maxlevel], [set_minlevel], [set_cycle], [set_edge_matrices],
    [set_edge_flux_matrices], [cycle], [vcycle].  The debug level only
    changes what is written to the log. *)
Theorem C9_debug_has_no_effect {V real : Type} `{VT : VectorType V real}
    (mg : Multigrid (V:=V) (real:=real)) (d1 d2 : Z) (fuel : nat) (op : Operation) :
  let r1 := bind (set_debug d1) (fun _ => perform fuel op) mg in
  let r2 := bind (set_debug d2) (fun _ => perform fuel op) mg in
  numerical_results r1.2 = numerical_results r2.2 /\
  events r1.2 = events r2.2 /\
  outcomes_match True r1.1 r2.1.
Proof.
  assert (Ha : agree (with_debug d1 mg) (with_debug d2 mg)) by reflexivity.
  cbv zeta. unfold bind, set_debug, modify.
  destruct (perform_sim fuel op _ _ Ha Logic.I) as (Ha' & _ & Ho).
  split; [now apply agree_numerical_results |]. split; [| exact Ho].
  now apply (agree_field events _ _ (fun _ => eq_refl)).
Qed.

(** C10: [set_minlevel(l, true)] hands [reinit] the minimum
    [(maxlevel - l) mod 2^32]; this is [maxlevel - l] when
    [l <= maxlevel]; when [l > maxlevel] it is [maxlevel - l + 2^32],
    above [maxlevel], and the call fails with the range exception of
    [reinit], leaving the state as it was. *)
Theorem C10_relative_minlevel {V real : Type} `{VT : VectorType V real}
    (mg : Multigrid (V:=V) (real:=real)) (l : Z) :
  is_uint l -> is_uint (maxlevel mg) ->
  set_minlevel l true mg = reinit ((maxlevel mg - l) mod 2 ^ 32) (maxlevel mg) mg /\
  (l <= maxlevel mg -> (maxlevel mg - l) mod 2 ^ 32 = maxlevel mg - l) /\
  (l > maxlevel mg ->
   (maxlevel mg - l) mod 2 ^ 32 = maxlevel mg - l + 2 ^ 32 /\
   maxlevel mg < (maxlevel mg - l) mod 2 ^ 32 /\
   exists a b, set_minlevel l true mg = (Raised (ExcLowerRangeType a b), mg)).
Proof.
  unfold is_uint. rewrite uint_mod_eq. intros Hl Hmax.
  change (2 ^ 32) with 4294967296.
  split; [reflexivity |]. split.
  - intros Hle. apply Z.mod_small. lia.
  - intros Hgt.
    assert (Hw : (maxlevel mg - l) mod 4294967296 = maxlevel mg - l + 4294967296).
    { symmetry. apply Z.mod_unique with (q := -1); lia. }
    split; [exact Hw |]. split; [lia |].
    unfold set_minlevel, bind, gets. cbn [fst snd].
    change (wrap (maxlevel mg - l)) with ((maxlevel mg - l) mod 4294967296).
    apply reinit_fails. lia.
Qed.

Lemma C10_relative_minlevel_witness :
  is_uint 3 /\ is_uint (maxlevel (two_level v_cycle)) /\
  set_minlevel 3 true (two_level v_cycle) =
    reinit ((maxlevel (two_level v_cycle) - 3) mod 2 ^ 32)
           (maxlevel (two_level v_cycle)) (two_level v_cycle) /\
  (3 > maxlevel (two_level v_cycle) ->
   (maxlevel (two_level v_cycle) - 3) mod 2 ^ 32 =
     maxlevel (two_level v_cycle) - 3 + 2 ^ 32 /\
   maxlevel (two_level v_cycle) < (maxlevel (two_level v_cycle) - 3) mod 2 ^ 32 /\
   exists a b,
     set_minlevel 3 true (two_level v_cycle) =
       (Raised (ExcLowerRangeType a b), two_level v_cycle)).
Proof.
  assert (H3 : is_uint 3) by (unfold is_uint; rewrite uint_mod_eq; lia).
  assert (H1 : is_uint (maxlevel (two_level v_cycle)))
    by (unfold is_uint; rewrite uint_mod_eq; simpl; lia).
  split; [exact H3 |]. split; [exact H1 |].
  destruct (C10_relative_minlevel (two_level v_cycle) 3 H3 H1) as (Heq & _ & Hgt).
  split; [exact Heq | exact Hgt].
Defined.

(** * Further properties *)

(** X1: when the configured cycle type is V, [cycle] and [vcycle] are the
    same computation: the same outcome and the same final state, for every
    state and every amount of fuel. *)
Theorem X1_cycle_is_vcycle {V real : Type} `{VT : VectorType V real}
    (mg : Multigrid (V:=V) (real:=real)) (fuel : nat) :
  cycle_type mg = v_cycle -> cycle fuel mg = vcycle fuel mg.
Proof. apply cycle_is_vcycle. Qed.

Lemma X1_cycle_is_vcycle_witness :
  cycle 3 (two_level v_cycle) = vcycle 3 (two_level v_cycle).
Proof. exact (X1_cycle_is_vcycle (two_level v_cycle) 3 eq_refl). Defined.

(** X2: a cycle takes no initial guess: what the solution store and the
    store [t] held before the call has no influence on [cycle] and
    [vcycle], and when the cycle type is W or F neither has what [defect2]
    held.  Both resize these stores before they use them. *)
Theorem X2_no_initial_guess {V real : Type} `{VT : VectorType V real}
    (mg : Multigrid (V:=V) (real:=real)) (fuel : nat)
    (S' T' D' : MGLevelObject (V:=V)) :
  cycle fuel (with_store Solution S' (with_store Scratch T' mg)) = cycle fuel mg /\
  vcycle fuel (with_store Solution S' (with_store Scratch T' mg)) = vcycle fuel mg /\
  (cycle_type mg <> v_cycle ->
   cycle fuel (with_store Defect2 D' mg) = cycle fuel mg).
Proof.
  split; [apply cycle_forgets |]. split; [apply vcycle_forgets |].
  apply cycle_forgets_defect2.
Qed.

Lemma X2_no_initial_guess_witness :
  cycle_type (two_level w_cycle) <> v_cycle /\
  cycle 3 (with_store Defect2 {| ml_minlevel := 0; objects := [7; 8] |}
             (two_level w_cycle)) =
  cycle 3 (two_level w_cycle).
Proof.
  split; [discriminate |].
  refine (proj2 (proj2 (X2_no_initial_guess (two_level w_cycle) 3
           {| ml_minlevel := 0; objects := [] |} {| ml_minlevel := 0; objects := [] |}
           {| ml_minlevel := 0; objects := [7; 8] |})) _).
  discriminate.
Defined.

(** X3: no cycle routine changes what the setters and [reinit] configure:
    after [cycle], [vcycle], [level_v_step] and [level_step], whatever
    their outcome, the cycle type, the level window, the collaborators,
    the four edge slots and the debug level are what they were. *)
Theorem X3_settings_kept {V real : Type} `{VT : VectorType V real}
    (mg : Multigrid (V:=V) (real:=real)) (fuel : nat) (level : Z) (c : Cycle) :
  settings (cycle fuel mg).2 = settings mg /\
  settings (vcycle fuel mg).2 = settings mg /\
  settings (level_v_step fuel level mg).2 = settings mg /\
  settings (level_step fuel level c mg).2 = settings mg.
Proof.
  split; [| split; [| split]].
  - now destruct (cycle_kept mg fuel mg (kept_refl _ mg)) as [[Hs _] _].
  - now destruct (vcycle_kept mg fuel mg (kept_refl _ mg)) as [[Hs _] _].
  - now destruct (level_v_step_kept mg fuel level mg (kept_refl _ mg)) as [[Hs _] _].
  - now destruct (level_step_kept mg fuel level c mg (kept_refl _ mg)) as [[Hs _] _].
Qed.

(** X4: the V-cycle never touches the store [defect2]: [level_v_step] and
    [vcycle] leave it as it was, whatever their outcome, and so does
    [cycle] when the cycle type is V. *)
Theorem X4_v_cycle_keeps_defect2 {V real : Type} `{VT : VectorType V real}
    (mg : Multigrid (V:=V) (real:=real)) (fuel : nat) (level : Z) :
  defect2 (level_v_step fuel level mg).2 = defect2 mg /\
  defect2 (vcycle fuel mg).2 = defect2 mg /\
  (cycle_type mg = v_cycle -> defect2 (cycle fuel mg).2 = defect2 mg).
Proof.
  split; [| split].
  - destruct (level_v_step_kept mg fuel level mg (kept_refl _ mg)) as [(_ & _ & Hk) _].
    apply (Hk Defect2). intros H. now apply H.
  - destruct (vcycle_kept mg fuel mg (kept_refl _ mg)) as [(_ & _ & Hk) _].
    apply (Hk Defect2). intros H. now apply H.
  - intros Hct.
    destruct (cycle_kept mg fuel mg (kept_refl _ mg)) as [(_ & _ & Hk) _].
    apply (Hk Defect2). intros H. now apply H.
Qed.

Lemma X4_v_cycle_keeps_defect2_witness :
  cycle_type (two_level v_cycle) = v_cycle /\
  defect2 (cycle 3 (two_level v_cycle)).2 = defect2 (two_level v_cycle).
Proof.
  split; [reflexivity |].
  exact (proj2 (proj2 (X4_v_cycle_keeps_defect2 (two_level v_cycle) 3 0)) eq_refl).
Defined.

(** X5: with the debug level at 0 nothing is written to the log: after
    [cycle], [vcycle], [level_v_step] and [level_step], whatever their
    outcome, the log is what it was. *)
Theorem X5_debug_zero_is_silent {V real : Type} `{VT : VectorType V real}
    (mg : Multigrid (V:=V) (real:=real)) (fuel : nat) (level : Z) (c : Cycle) :
  debug mg = 0 ->
  deallog (cycle fuel mg).2 = deallog mg /\
  deallog (vcycle fuel mg).2 = deallog mg /\
  deallog (level_v_step fuel level mg).2 = deallog mg /\
  deallog (level_step fuel level c mg).2 = deallog mg.
Proof.
  intros Hd.
  assert (Hq : quiet (deallog mg) mg) by (split; [lia | reflexivity]).
  split; [| split; [| split]].
  - now destruct (cycle_quiet (deallog mg) fuel mg Hq) as [[_ Hl] _].
  - now destruct (vcycle_quiet (deallog mg) fuel mg Hq) as [[_ Hl] _].
  - now destruct (level_v_step_quiet (deallog mg) fuel level mg Hq) as [[_ Hl] _].
  - now destruct (level_step_quiet (deallog mg) fuel level c mg Hq) as [[_ Hl] _].
Qed.

Lemma X5_debug_zero_is_silent_witness :
  debug (two_level w_cycle) = 0 /\
  deallog (cycle 3 (two_level w_cycle)).2 = deallog (two_level w_cycle).
Proof.
  split; [reflexivity |].
  exact (proj1 (X5_debug_zero_is_silent (two_level w_cycle) 3 0 v_cycle eq_refl)).
Defined.

(** X6: the public operations keep the defect store in step with the
    level window: when [minlevel <= maxlevel] and the defect store is
    addressable exactly on [minlevel..maxlevel] before [reinit],
    [set_maxlevel], [set_minlevel], [set_cycle], [set_edge_matrices],
    [set_edge_flux_matrices], [cycle], [vcycle] or [set_debug], it is so
    afterwards, whether the operation returns, raises or runs out of
    fuel. *)
Theorem X6_defect_spans_window {V real : Type} `{VT : VectorType V real}
    (mg : Multigrid (V:=V) (real:=real)) (fuel : nat) (op : Operation) (d : Z) :
  spans mg ->
  spans (perform fuel op mg).2 /\ spans (set_debug d mg).2.
Proof. intros Hs. split; [now apply perform_spans | exact Hs]. Qed.

Lemma X6_defect_spans_window_witness :
  spans (two_level w_cycle) /\
  spans (perform 3 (SetMinlevel 3 true) (two_level w_cycle)).2.
Proof.
  assert (Hs : spans (two_level w_cycle)) by (repeat split; simpl; lia).
  split; [exact Hs |].
  exact (proj1 (X6_defect_spans_window (two_level w_cycle) 3 (SetMinlevel 3 true) 0 Hs)).
Defined.

(** X7: from a state whose defect store spans the level window
    [minlevel..maxlevel], with [maxlevel < 2^32 - 1], [cycle] returns
    normally for every cycle type and all collaborators, given fuel for
    the loop and the recursion; afterwards the solution store and the
    store [t] are addressable exactly on the window. *)
Theorem X7_cycle_returns {V real : Type} `{VT : VectorType V real}
    (mg : Multigrid (V:=V) (real:=real)) (fuel : nat) :
  spans mg -> 0 <= minlevel mg -> maxlevel mg < uint_mod - 1 ->
  (Z.to_nat (maxlevel mg - minlevel mg) + 1 < fuel)%nat ->
  exists mg',
    cycle fuel mg = (Done tt, mg') /\
    forall i,
      (ml_addressable (solution mg') i = true <-> minlevel mg <= i <= maxlevel mg) /\
      (ml_addressable (t mg') i = true <-> minlevel mg <= i <= maxlevel mg).
Proof.
  intros Hs H0 Hu Hfuel.
  destruct (cycle_returns mg fuel Hs H0 Hu Hfuel) as (mg' & Hrun & [(_ & _ & Hr) _]).
  exists mg'. split; [exact Hrun |]. intros i.
  destruct (Hr Solution) as [Hl1 Hh1]; [intros _; discriminate |].
  destruct (Hr Scratch) as [Hl2 Hh2]; [intros _; discriminate |].
  cbn [store] in *. rewrite !ml_addressable_iff, Hl1, Hh1, Hl2, Hh2. lia.
Qed.

Lemma X7_cycle_returns_witness :
  exists mg',
    cycle 4 (three_levels f_cycle) = (Done tt, mg') /\
    forall i,
      (ml_addressable (solution mg') i = true <->
       minlevel (three_levels f_cycle) <= i <= maxlevel (three_levels f_cycle)) /\
      (ml_addressable (t mg') i = true <->
       minlevel (three_levels f_cycle) <= i <= maxlevel (three_levels f_cycle)).
Proof.
  apply (X7_cycle_returns (three_levels f_cycle) 4).
  - repeat split; simpl; lia.
  - simpl. lia.
  - rewrite uint_mod_eq. simpl. lia.
  - simpl. lia.
Defined.

(** X8: the number of coarse solves of one [cycle] over a window of
    [d + 1] levels ([d = maxlevel - minlevel]), from a state whose defect
    store spans the window: 1 with cycle type V, [2^(d-1)] with W and [d]
    with F when [d >= 1], and 1 when [d = 0]. *)
Theorem X8_coarse_solves {V real : Type} `{VT : VectorType V real}
    (mg : Multigrid (V:=V) (real:=real)) (fuel : nat) :
  spans mg -> 0 <= minlevel mg -> maxlevel mg < uint_mod - 1 ->
  (Z.to_nat (maxlevel mg - minlevel mg) + 1 < fuel)%nat ->
  exists mg' new,
    cycle fuel mg = (Done tt, mg') /\ events mg' = events mg ++ new /\
    coarse_calls new =
      coarse_solves (cycle_type mg) (Z.to_nat (maxlevel mg - minlevel mg)).
Proof.
  intros Hs H0 Hu Hfuel.
  destruct (cycle_returns mg fuel Hs H0 Hu Hfuel) as (mg' & Hrun & [_ (new & Hev & Hnew)]).
  exists mg', new. split; [exact Hrun |]. split; [exact Hev |].
  apply (f_equal (@rev Event)) in Hnew. rewrite !rev_involutive in Hnew.
  rewrite <- (coarse_calls_essential new), Hnew. unfold cycle_trace.
  destruct (cycle_type mg); [reflexivity | apply step_trace_coarse ..].
Qed.

Lemma X8_coarse_solves_witness :
  exists mg' new,
    cycle 5 four_levels = (Done tt, mg') /\ events mg' = events four_levels ++ new /\
    coarse_calls new =
      coarse_solves (cycle_type four_levels)
                    (Z.to_nat (maxlevel four_levels - minlevel four_levels)).
Proof.
  apply (X8_coarse_solves four_levels 5).
  - repeat split; simpl; lia.
  - simpl. lia.
  - rewrite uint_mod_eq. simpl. lia.
  - simpl. lia.
Defined.

(** X9: the coarse solver is called on the minimal level and nothing else
    is: among the calls that [cycle] or [vcycle] makes, whatever the
    outcome, a call is on level [minlevel] exactly when it is a call of
    the coarse solver; smoothers, level operator, edge operators and
    transfer work on the levels other than [minlevel]. *)
Theorem X9_coarse_solver_on_minlevel_only {V real : Type} `{VT : VectorType V real}
    (mg : Multigrid (V:=V) (real:=real)) (fuel : nat) :
  (exists new,
     events (cycle fuel mg).2 = events mg ++ new /\
     forall who level, In (Invoke who level) new ->
       (who = TheCoarse <-> level = minlevel mg)) /\
  (exists new,
     events (vcycle fuel mg).2 = events mg ++ new /\
     forall who level, In (Invoke who level) new ->
       (who = TheCoarse <-> level = minlevel mg)).
Proof.
  split.
  - destruct (cycle_calls mg fuel mg (disciplined_refl mg)) as [Hd _].
    destruct (disciplined_calls _ _ Hd) as (new & Hev & Hok).
    exists new. split; [exact Hev |]. intros who level Hin.
    now apply call_ok_coarse, Hok.
  - destruct (vcycle_calls mg fuel mg (disciplined_refl mg)) as [Hd _].
    destruct (disciplined_calls _ _ Hd) as (new & Hev & Hok).
    exists new. split; [exact Hev |]. intros who level Hin.
    now apply call_ok_coarse, Hok.
Qed.

(** X10: an edge operator whose slot is unset is never called: among the
    calls that [cycle] or [vcycle] makes, whatever the outcome, a call of
    [edge_out], [edge_in], [edge_down] or [edge_up] occurs only when the
    slot was set before the call. *)
Theorem X10_unset_edge_never_called {V real : Type} `{VT : VectorType V real}
    (mg : Multigrid (V:=V) (real:=real)) (fuel : nat) :
  (exists new,
     events (cycle fuel mg).2 = events mg ++ new /\
     forall level,
       (In (Invoke TheEdgeOut level) new -> edge_out mg <> None) /\
       (In (Invoke TheEdgeIn level) new -> edge_in mg <> None) /\
       (In (Invoke TheEdgeDown level) new -> edge_down mg <> None) /\
       (In (Invoke TheEdgeUp level) new -> edge_up mg <> None)) /\
  (exists new,
     events (vcycle fuel mg).2 = events mg ++ new /\
     forall level,
       (In (Invoke TheEdgeOut level) new -> edge_out mg <> None) /\
       (In (Invoke TheEdgeIn level) new -> edge_in mg <> None) /\
       (In (Invoke TheEdgeDown level) new -> edge_down mg <> None) /\
       (In (Invoke TheEdgeUp level) new -> edge_up mg <> None)).
Proof.
  split.
  - destruct (cycle_calls mg fuel mg (disciplined_refl mg)) as [Hd _].
    destruct (disciplined_calls _ _ Hd) as (new & Hev & Hok).
    exists new. split; [exact Hev |]. intros level.
    repeat split; intros Hin; now apply (call_ok_edges mg _ level (Hok _ Hin)).
  - destruct (vcycle_calls mg fuel mg (disciplined_refl mg)) as [Hd _].
    destruct (disciplined_calls _ _ Hd) as (new & Hev & Hok).
    exists new. split; [exact Hev |]. intros level.
    repeat split; intros Hin; now apply (call_ok_edges mg _ level (Hok _ Hin)).
Qed.







(** X14: the complete sequence of collaborator calls of a V-cycle.  From
    a state whose defect store spans the window, [cycle] with cycle type
    V returns and has made exactly the calls [v_calls]: on each level
    above [minlevel], from the finest down, pre-smoother, level operator,
    [edge_out] and [edge_down] when set, restriction; then the coarse
    solver on [minlevel]; then on each level, from the coarsest up,
    prolongation, [edge_in] and [edge_up] when set, post-smoother. *)
Theorem X14_v_cycle_call_sequence {V real : Type} `{VT : VectorType V real}
    (mg : Multigrid (V:=V) (real:=real)) (fuel : nat) :
  spans mg -> 0 <= minlevel mg -> maxlevel mg < uint_mod - 1 ->
  cycle_type mg = v_cycle ->
  (Z.to_nat (maxlevel mg - minlevel mg) + 1 < fuel)%nat ->
  exists mg',
    cycle fuel mg = (Done tt, mg') /\
    events mg' =
      events mg ++ v_calls (minlevel mg) mg (Z.to_nat (maxlevel mg - minlevel mg)).
Proof.
  intros (Hle & Hlo & Hhi) H0 Hu Hct Hfuel.
  destruct (cycle_logged (minlevel mg) (maxlevel mg) mg H0 Hle Hu fuel)
    as (mg' & Hrun & Hev).
  - split; [reflexivity |]. split; [reflexivity |]. intros s ->. auto.
  - exact Hfuel.
  - exists mg'. split; [exact Hrun |]. rewrite Hev. unfold cycle_sequence.
    now rewrite Hct.
Qed.

Lemma X14_v_cycle_call_sequence_witness :
  exists mg',
    cycle 4 (three_levels v_cycle) = (Done tt, mg') /\
    events mg' =
      events (three_levels v_cycle) ++
      v_calls (minlevel (three_levels v_cycle)) (three_levels v_cycle)
              (Z.to_nat (maxlevel (three_levels v_cycle) - minlevel (three_levels v_cycle))).
Proof.
  apply (X14_v_cycle_call_sequence (three_levels v_cycle) 4).
  - repeat split; simpl; lia.
  - simpl. lia.
  - rewrite uint_mod_eq. simpl. lia.
  - reflexivity.
  - simpl. lia.
Defined.

(** X15: the complete sequence of calls and descents of a W- or F-cycle.
    From a state whose defect store spans the window, [cycle] with cycle
    type W or F returns and has made exactly the calls [step_calls]: on a
    level above [minlevel], restriction of [defect2], pre-smoother, level
    operator, [edge_out] and [edge_down] when set, restriction, the first
    descent, above [minlevel+1] the second descent (with type W from W,
    with type V from F), prolongation, [edge_in] and [edge_up] when set,
    post-smoother; on [minlevel] the coarse solver. *)
Theorem X15_general_cycle_call_sequence {V real : Type} `{VT : VectorType V real}
    (mg : Multigrid (V:=V) (real:=real)) (fuel : nat) :
  spans mg -> 0 <= minlevel mg -> maxlevel mg < uint_mod - 1 ->
  cycle_type mg <> v_cycle ->
  (Z.to_nat (maxlevel mg - minlevel mg) + 1 < fuel)%nat ->
  exists mg',
    cycle fuel mg = (Done tt, mg') /\
    events mg' =
      events mg ++ step_calls (minlevel mg) mg (Z.to_nat (maxlevel mg - minlevel mg))
                              (cycle_type mg).
Proof.
  intros (Hle & Hlo & Hhi) H0 Hu Hct Hfuel.
  destruct (cycle_logged (minlevel mg) (maxlevel mg) mg H0 Hle Hu fuel)
    as (mg' & Hrun & Hev).
  - split; [reflexivity |]. split; [reflexivity |]. intros s ->. auto.
  - exact Hfuel.
  - exists mg'. split; [exact Hrun |]. rewrite Hev. unfold cycle_sequence.
    destruct (cycle_type mg); [contradiction | reflexivity ..].
Qed.

Lemma X15_general_cycle_call_sequence_witness :
  exists mg',
    cycle 4 (three_levels f_cycle) = (Done tt, mg') /\
    events mg' =
      events (three_levels f_cycle) ++
      step_calls (minlevel (three_levels f_cycle)) (three_levels f_cycle)
                 (Z.to_nat (maxlevel (three_levels f_cycle) - minlevel (three_levels f_cycle)))
                 (cycle_type (three_levels f_cycle)).
Proof.
  apply (X15_general_cycle_call_sequence (three_levels f_cycle) 4).
  - repeat split; simpl; lia.
  - simpl. lia.
  - rewrite uint_mod_eq. simpl. lia.
  - discriminate.
  - simpl. lia.
Defined.

(** X16: the V-cycle on two levels (0 and 1) with no edge operator set,
    for any vectors and collaborators and any debug level.  With [y] the
    pre-smoothed solution, [level_v_step(1)] returns; the coarse solver
    receives the coarse defect plus the restricted residual
    [defect[1] - A*y]; the result is the post-smoothed sum of [y] and the
    prolongated coarse solution; and [defect[0]] ends as that coarse
    right-hand side. *)
Theorem X16_two_grid_v_cycle {V real : Type} `{VT : VectorType V real}
    (mg : Multigrid (V:=V) (real:=real)) (fuel : nat) (d0 d1 s0 s1 x0 x1 : V) :
  minlevel mg = 0 ->
  defect mg = two_slots 0 d0 d1 -> solution mg = two_slots 0 s0 s1 ->
  t mg = two_slots 0 x0 x1 ->
  edge_out mg = None -> edge_in mg = None ->
  edge_down mg = None -> edge_up mg = None ->
  let r := level_v_step (S (S fuel)) 1 mg in
  let y := smooth (pre_smooth mg) 1 s1 d1 in
  let res := vsadd (-1) 1 (vmult (matrix mg) 1 x1 y) d1 in
  let rhs := restrict_and_add (transfer mg) 1 d0 res in
  let c := coarse_solve (coarse mg) 0 (vassign 0 s0) rhs in
  let p := prolongate (transfer mg) 1 (vassign 0 res) c in
  r.1 = Done tt /\
  solution r.2 = two_slots 0 c (smooth (post_smooth mg) 1 (vadd y p) d1) /\
  defect r.2 = two_slots 0 rhs d1.
Proof.
  intros H1 H2 H3 H4 H5 H6 H7 H8. cbv zeta.
  destruct (level_v_step_two_levels mg fuel d0 d1 s0 s1 x0 x1 H1 H2 H3 H4 H5 H6 H7 H8)
    as (Hd & Hs & Hdef).
  destruct (erased_run (level_v_step (S (S fuel)) 1) mg
              (fun D => level_v_step_sim D _ _) Hd) as [Hdone Hst].
  split; [exact Hdone |]. split.
  - rewrite <- Hs. exact (Hst Solution).
  - rewrite <- Hdef. exact (Hst Defect).
Qed.

Lemma X16_two_grid_v_cycle_witness :
  solution (level_v_step 2 1 (started v_cycle level_operator [0; 4])).2 =
  two_slots 0 4 4.
Proof.
  exact (proj1 (proj2 (X16_two_grid_v_cycle (started v_cycle level_operator [0; 4])
                         0 0 4 0 0 0 0
                         eq_refl eq_refl eq_refl eq_refl eq_refl eq_refl eq_refl eq_refl))).
Defined.

(** X17: the general recursion on two levels (0 and 1) with no edge
    operator set, for any vectors, collaborators, cycle type and debug
    level.  [level_step(1, c)] returns; the pre-smoother works on
    [defect[1] - defect2[1]]; the coarse solver receives
    [defect[0] - defect2[0]], where [defect2[0]] holds the restrictions of
    [defect2[1]] and of [A*y] only: [defect[1]] is not carried to level
    0; the defect store is left as it was. *)
Theorem X17_two_grid_general_step {V real : Type} `{VT : VectorType V real}
    (mg : Multigrid (V:=V) (real:=real)) (fuel : nat) (cy : Cycle)
    (d0 d1 s0 s1 x0 x1 e0 e1 : V) :
  minlevel mg = 0 ->
  defect mg = two_slots 0 d0 d1 -> solution mg = two_slots 0 s0 s1 ->
  t mg = two_slots 0 x0 x1 -> defect2 mg = two_slots 0 e0 e1 ->
  edge_out mg = None -> edge_in mg = None ->
  edge_down mg = None -> edge_up mg = None ->
  let r := level_step (S (S fuel)) 1 cy mg in
  let b1 := vadd (vequ (-1) x1 e1) d1 in
  let y := smooth (pre_smooth mg) 1 s1 b1 in
  let a := vmult (matrix mg) 1 b1 y in
  let e0' := restrict_and_add (transfer mg) 1
               (restrict_and_add (transfer mg) 1 (vassign 0 e0) e1) a in
  let b0 := vadd (vequ (-1) x0 e0') d0 in
  let c := coarse_solve (coarse mg) 0 (vassign 0 s0) b0 in
  let p := prolongate (transfer mg) 1 (vassign 0 a) c in
  let b1' := vadd (vsadd (-1) (-1) p e1) d1 in
  r.1 = Done tt /\
  solution r.2 = two_slots 0 c (smooth (post_smooth mg) 1 (vadd y p) b1') /\
  defect r.2 = two_slots 0 d0 d1 /\
  defect2 r.2 = two_slots 0 e0' e1.
Proof.
  intros H1 H2 H3 H4 H5 H6 H7 H8 H9. cbv zeta.
  destruct (level_step_two_levels mg fuel cy d0 d1 s0 s1 x0 x1 e0 e1
              H1 H2 H3 H4 H5 H6 H7 H8 H9) as (Hd & Hs & Hdef & Hdef2).
  destruct (erased_run (level_step (S (S fuel)) 1 cy) mg
              (fun D => level_step_sim D _ _ _) Hd) as [Hdone Hst].
  split; [exact Hdone |]. split; [| split].
  - rewrite <- Hs. exact (Hst Solution).
  - rewrite <- Hdef. exact (Hst Defect).
  - rewrite <- Hdef2. exact (Hst Defect2).
Qed.

Lemma X17_two_grid_general_step_witness :
  solution (level_step 2 1 w_cycle (started w_cycle level_operator [0; 4])).2 =
  two_slots 0 0 0.
Proof.
  exact (proj1 (proj2 (X17_two_grid_general_step (started w_cycle level_operator [0; 4])
                         0 w_cycle 0 4 0 0 0 0 0 0
                         eq_refl eq_refl eq_refl eq_refl eq_refl
                         eq_refl eq_refl eq_refl eq_refl))).
Defined.




